(** * Shipping-label code extraction: candidate generation, scoring, selection

  A shallow embedding of [src/text_extraction.py] (class [TextExtractor])
  and [src/pattern_refiner.py] (class [PatternRefiner]), together with the
  pieces of the Python runtime they rely upon ([str] methods and the
  fragment of [re] used by the five extraction patterns and the two
  substitutions of [_clean_text]).

  Strings are sequences of Unicode code points ([list N]).  The class
  [\s] is that of [str.isspace], [str.strip] and [str.split]; the class
  [\d] holds the decimal digits of every script; [[0-9]] and [[a-zA-Z]]
  are the ASCII ranges.  Python integers are unbounded: lengths and edit
  distances are [nat], scores and the snap threshold are [Z]. *)

From Stdlib Require Import ZArith Lia Ascii String List Bool Sorted.
From stdpp Require Import base option list gmap strings.

Local Open Scope nat_scope.

(** ** Python runtime *)

Module Py.

Abbreviation char := N.

Abbreviation str := (list char).

(** Character and string literals. *)
Definition ch (a : ascii) : char := N_of_ascii a.

Definition lit (s : string) : str := map ch (list_ascii_of_string s).

(** Exceptions the modelled code can raise; [Foreign] stands for those of
    the libraries outside the model, by name. *)
Inductive exn := ValueError | TypeError | IndexError | Foreign (name : string).

Inductive result (A : Type) :=
| Ok (a : A)
| Raise (e : exn).
Arguments Ok {A} a.
Arguments Raise {A} e.

Definition bind {A B} (r : result A) (k : A -> result B) : result B :=
  match r with
  | Ok a => k a
  | Raise e => Raise e
  end.

(** [for x in l: acc = f(acc, x)] where the body may raise. *)
Fixpoint for_each {A S} (f : S -> A -> result S) (l : list A) (acc : S)
  : result S :=
  match l with
  | [] => Ok acc
  | x :: l' => bind (f acc x) (for_each f l')
  end.

(** *** Character classes *)

Definition between (lo hi : N) (c : char) : bool :=
  ((lo <=? c) && (c <=? hi))%N.

(** [[0-9]]. *)
Definition is_digit (c : char) : bool := between 48 57 c.

(** [[a-zA-Z]]. *)
Definition is_alpha (c : char) : bool := between 97 122 c || between 65 90 c.

(** [\s] and [str.isspace]: TAB..CR, FS..US, SPACE, NEL, NBSP, OGHAM SPACE
    MARK, EN QUAD..HAIR SPACE, LINE and PARAGRAPH SEPARATOR, NARROW NO-BREAK
    SPACE, MEDIUM MATHEMATICAL SPACE, IDEOGRAPHIC SPACE. *)
Definition is_space (c : char) : bool :=
  between 9 13 c || between 28 32 c || (c =? 133)%N || (c =? 160)%N ||
  (c =? 5760)%N || between 8192 8202 c || between 8232 8233 c ||
  (c =? 8239)%N || (c =? 8287)%N || (c =? 12288)%N.

(** The digit zero of every decimal system (general category Nd, through
    Unicode 17.0); the nine code points after each are its other digits.
    An interpreter with an older character database knows the older of
    these systems only. *)
Definition decimal_zeros : list N :=
  [48; 1632; 1776; 1984; 2406; 2534; 2662; 2790; 2918; 3046; 3174; 3302;
   3430; 3558; 3664; 3792; 3872; 4160; 4240; 6112; 6160; 6470; 6608; 6784;
   6800; 6992; 7088; 7232; 7248; 42528; 43216; 43264; 43472; 43504; 43600;
   44016; 65296; 66720; 68912; 68928; 69734; 69872; 69942; 70096; 70384;
   70736; 70864; 71248; 71360; 71376; 71386; 71472; 71904; 72016; 72688;
   72784; 73040; 73120; 73184; 73552; 90416; 92768; 92864; 93008; 93552;
   118000; 120782; 120792; 120802; 120812; 120822; 123200; 123632; 124144;
   124401; 125264; 130032]%N.

(** [\d]: the decimal digits of every script, those of ASCII among them. *)
Definition is_decimal (c : char) : bool :=
  existsb (fun zero => between zero (zero + 9) c) decimal_zeros.

Definition is_char (x : ascii) (c : char) : bool := (ch x =? c)%N.

Definition non (cls : char -> bool) (c : char) : bool := negb (cls c).

(** [str.lower] on one code point, for the ASCII letters: the program
    lowers strings from which [[^a-zA-Z]] has been removed. *)
Definition lower_char (c : char) : char :=
  if between 65 90 c then (c + 32)%N else c.

Definition lower (s : str) : str := map lower_char s.

(** *** [str] methods *)

(** [s.replace(x, y)] for one-character [x] and [y]. *)
Definition replace_char (x y : ascii) (s : str) : str :=
  map (fun c => if (c =? ch x)%N then ch y else c) s.

Fixpoint lstrip (s : str) : str :=
  match s with
  | c :: s' => if is_space c then lstrip s' else s
  | [] => []
  end.

Definition rstrip (s : str) : str := rev (lstrip (rev s)).

(** [s.strip()]. *)
Definition strip (s : str) : str := rstrip (lstrip s).

(** [s.startswith(p)]. *)
Fixpoint startswith (p s : str) : bool :=
  match p, s with
  | [], _ => true
  | x :: p', c :: s' => (x =? c)%N && startswith p' s'
  | _ :: _, [] => false
  end.

(** [sub in s]. *)
Fixpoint contains (sub s : str) : bool :=
  startswith sub s ||
  match s with
  | [] => false
  | _ :: s' => contains sub s'
  end.

(** [s.split(sep)] for a non-empty [sep]: the scan cuts at the leftmost
    occurrence and resumes after it.  [skip] counts the characters of a
    separator still to be passed over, [cur] is the piece being built
    (reversed). *)
Fixpoint split_go (sep : str) (skip : nat) (cur : str) (s : str) : list str :=
  match s with
  | [] => [rev cur]
  | c :: s' =>
      match skip with
      | S k => split_go sep k cur s'
      | O =>
          if startswith sep s
          then rev cur :: split_go sep (length sep - 1) [] s'
          else split_go sep 0 (c :: cur) s'
      end
  end.

Definition split (sep : str) (s : str) : list str := split_go sep 0 [] s.

(** [s.split()]: the maximal runs of non-whitespace characters. *)
Fixpoint words_go (cur : str) (s : str) : list str :=
  match s with
  | [] => match cur with [] => [] | _ => [rev cur] end
  | c :: s' =>
      if is_space c
      then match cur with
           | [] => words_go [] s'
           | _ => rev cur :: words_go [] s'
           end
      else words_go (c :: cur) s'
  end.

Definition words (s : str) : list str := words_go [] s.

(** [sep.join(l)]. *)
Fixpoint join (sep : str) (l : list str) : str :=
  match l with
  | [] => []
  | [w] => w
  | w :: l' => w ++ sep ++ join sep l'
  end.

End Py.

Import Py.

(** ** The fragment of [re] used by the program

    A pattern is a sequence of items: a character class with a greedy
    bounded repetition, a one-character lookbehind, a one-character
    lookahead.  Matching is Python's: every repetition first takes as many
    characters as it can and gives them back one at a time while the rest
    of the pattern fails. *)

Module Re.

Inductive item :=
| Rep (cls : char -> bool) (lo : nat) (hi : option nat)
| Behind (cls : char -> bool)
| Ahead (cls : char -> bool).

Abbreviation pattern := (list item).

(** A literal character. *)
Definition chr (s : string) : item :=
  match s with
  | String c _ => Rep (is_char c) 1 (Some 1)
  | EmptyString => Rep (fun _ => false) 1 (Some 1)
  end.

(** Number of leading characters of [s] in [cls]. *)
Fixpoint span (cls : char -> bool) (s : str) : nat :=
  match s with
  | c :: s' => if cls c then S (span cls s') else 0
  | [] => 0
  end.

Definition cap (hi : option nat) (n : nat) : nat :=
  match hi with
  | Some h => Nat.min h n
  | None => n
  end.

(** Tries [k], [k-1], ..., [lo] and keeps the first success. *)
Fixpoint backtrack {A} (try : nat -> option A) (lo k : nat) : option A :=
  if k <? lo then None
  else match try k with
       | Some r => Some r
       | None => match k with
                 | O => None
                 | S k' => backtrack try lo k'
                 end
       end.

(** The character before the position reached after consuming [k]
    characters of [s]. *)
Definition prev_after (prev : option char) (s : str) (k : nat) : option char :=
  match k with
  | O => prev
  | S j => s !! j
  end.

(** Length of the match of [p] starting at the head of [s], [prev] being
    the character before it. *)
Fixpoint match_here (p : pattern) (prev : option char) (s : str) : option nat :=
  match p with
  | [] => Some 0
  | Rep cls lo hi :: p' =>
      backtrack
        (fun k => match match_here p' (prev_after prev s k) (drop k s) with
                  | Some len => Some (k + len)
                  | None => None
                  end)
        lo (cap hi (span cls s))
  | Behind cls :: p' =>
      match prev with
      | Some c => if cls c then match_here p' prev s else None
      | None => None
      end
  | Ahead cls :: p' =>
      match s with
      | c :: _ => if cls c then match_here p' prev s else None
      | [] => None
      end
  end.

(** [p.finditer(s)], as the list of matched substrings.  The patterns of
    the program cannot match the empty string, so an empty match counts as
    no match.  [skip] is the number of characters of the last match still
    to be passed over. *)
Fixpoint finditer_go (p : pattern) (skip : nat) (prev : option char) (s : str)
  : list str :=
  match s with
  | [] => []
  | c :: s' =>
      match skip with
      | S k => finditer_go p k (Some c) s'
      | O =>
          match match_here p prev s with
          | Some (S len) => take (S len) s :: finditer_go p len (Some c) s'
          | _ => finditer_go p 0 (Some c) s'
          end
      end
  end.

Definition finditer (p : pattern) (s : str) : list str := finditer_go p 0 None s.

(** [re.sub(p, repl, s)] for a replacement without group references. *)
Fixpoint sub_go (p : pattern) (repl : str) (skip : nat) (prev : option char)
  (s : str) : str :=
  match s with
  | [] => []
  | c :: s' =>
      match skip with
      | S k => sub_go p repl k (Some c) s'
      | O =>
          match match_here p prev s with
          | Some (S len) => repl ++ sub_go p repl len (Some c) s'
          | _ => c :: sub_go p repl 0 (Some c) s'
          end
      end
  end.

Definition sub (p : pattern) (repl : str) (s : str) : str := sub_go p repl 0 None s.

End Re.

(** ** [src/pattern_refiner.py] *)

Module PatternRefiner.

Record t := { max_snap : Z }.

(** [__init__(self, max_snap_distance=3)]. *)
Definition init (max_snap_distance : option Z) : t :=
  {| max_snap := default 3%Z max_snap_distance |}.

(** The table [dp] of [_levenshtein], a list of rows.  The loops keep [i]
    within [0..la] and [j] within [0..lb], the bounds of the table. *)
Abbreviation table := (list (list nat)).

Definition get (dp : table) (i j : nat) : nat :=
  default 0 (dp !! i ≫= fun row => row !! j).

Definition set (dp : table) (i j : nat) (v : nat) : table :=
  match dp !! i with
  | Some row => <[i := <[j := v]> row]> dp
  | None => dp
  end.

Definition cell (a b : str) (dp : table) (i j : nat) : table :=
  let cost := if decide (a !! (i - 1) = b !! (j - 1)) then 0 else 1 in
  set dp i j (Nat.min (get dp (i - 1) j + 1)
                (Nat.min (get dp i (j - 1) + 1) (get dp (i - 1) (j - 1) + cost))).

Definition _levenshtein (a b : str) : nat :=
  if decide (a = b) then 0
  else
    let la := length a in
    let lb := length b in
    let dp := replicate (la + 1) (replicate (lb + 1) 0) in
    let dp := foldl (fun dp i => set dp i 0 i) dp (seq 0 (la + 1)) in
    let dp := foldl (fun dp j => set dp 0 j j) dp (seq 0 (lb + 1)) in
    let dp := foldl (fun dp i => foldl (fun dp j => cell a b dp i j) dp (seq 1 lb))
                dp (seq 1 la) in
    get dp la lb.

(** The loop building [unique] and [seen]. *)
Fixpoint unique_go (unique : list str) (seen : gset str) (l : list str) : list str :=
  match l with
  | [] => unique
  | c :: l' =>
      if decide (c ∈ seen) then unique_go unique seen l'
      else unique_go (unique ++ [c]) ({[c]} ∪ seen) l'
  end.

Definition unique_of (raw_candidates : list str) : list str :=
  unique_go [] ∅ raw_candidates.

(** The loop over [unique] keeping [(best, best_dist)]. *)
Definition closest_step (ground_truth : str) (st : option str * option nat) (c : str)
  : option str * option nat :=
  let d := _levenshtein c ground_truth in
  match st.2 with
  | None => (Some c, Some d)
  | Some best_dist => if d <? best_dist then (Some c, Some d) else st
  end.

Definition closest (ground_truth : str) (unique : list str) : option str * option nat :=
  foldl (closest_step ground_truth) (None, None) unique.

(** [max(l, key=key)]: the first element whose key no other exceeds. *)
Definition max_by (key : str -> Z) (l : list str) : result str :=
  match l with
  | [] => Raise ValueError
  | x :: l' => Ok (foldl (fun best c => if (key best <? key c)%Z then c else best) x l')
  end.

(** Truth value of an [Optional[str]]. *)
Definition truthy (o : option str) : bool :=
  match o with
  | Some (_ :: _) => true
  | _ => false
  end.

Definition fallback (unique : list str) (score_map : gmap str Z) : result (option str) :=
  bind (max_by (fun c => default 0%Z (score_map !! c)) unique) (fun best => Ok (Some best)).

Definition choose_best (self : t) (raw_candidates : list str)
  (score_map : gmap str Z) (ground_truth : option str) : result (option str) :=
  match raw_candidates with
  | [] => Ok None
  | _ =>
      let unique := unique_of raw_candidates in
      match ground_truth with
      | Some (g0 :: g') =>
          let gt := g0 :: g' in
          match (closest gt unique).2 with
          | None => Raise TypeError
          | Some best_dist =>
              if (Z.of_nat best_dist <=? max_snap self)%Z then Ok (Some gt)
              else fallback unique score_map
          end
      | _ => fallback unique score_map
      end
  end.

End PatternRefiner.

(** ** [src/text_extraction.py] *)

Module TextExtractor.

Import Re.

Record t := { gt_map : gmap str str; refiner : PatternRefiner.t }.

(** [__init__(self, ground_truth_map=None, max_snap_distance=3)]. *)
Definition init (ground_truth_map : option (gmap str str)) (max_snap_distance : option Z) : t :=
  {| gt_map := default ∅ ground_truth_map;
     refiner := PatternRefiner.init max_snap_distance |}.

(** [\d{lo,hi}] *)
Definition digits (lo hi : nat) : item := Rep is_decimal lo (Some hi).
Definition letters (lo hi : nat) : item := Rep is_alpha lo (Some hi).
Definition spaces : item := Rep is_space 0 None.

Definition patterns : list pattern :=
  [ [digits 18 18; chr "_"; chr "1"; chr "_"; letters 3 3];
    [digits 15 20; chr "_"; chr "1"; chr "_"; letters 1 3];
    [digits 15 20; spaces; chr "_"; spaces; chr "1"; spaces; chr "_"; spaces;
     letters 0 3];
    [digits 15 20; chr "_"; chr "1"];
    [digits 15 20] ].

(** [\s*_\s*] *)
Definition re_separator : pattern := [spaces; chr "_"; spaces].

(** [(?<=\d)\s+(?=\d)] *)
Definition re_digit_gap : pattern :=
  [Behind is_decimal; Rep is_space 1 None; Ahead is_decimal].

(** [[^0-9]] *)
Definition re_non_digit : pattern := [Rep (non is_digit) 1 (Some 1)].

(** [[^a-zA-Z]] *)
Definition re_non_alpha : pattern := [Rep (non is_alpha) 1 (Some 1)].

Definition _clean_text (t : str) : str :=
  let t := replace_char "013" " " (replace_char "010" " " t) in
  let t := join (lit " ") (words t) in
  let t := sub re_separator (lit "_") t in
  let t := sub re_digit_gap [] t in
  t.

Definition _norm (p : str) : result str :=
  let p := strip p in
  if contains (lit "_1_") p then
    match split (lit "_1_") p with
    | [n; s] =>
        let n := sub re_non_digit [] n in
        let s := lower (sub re_non_alpha [] s) in
        Ok (n ++ lit "_1_" ++ s)
    | _ => Raise ValueError
    end
  else if contains (lit "_1") p then
    match split (lit "_1") p with
    | n :: _ => Ok (sub re_non_digit [] n ++ lit "_1")
    | [] => Raise IndexError
    end
  else Ok (sub re_non_digit [] p).

Definition _score (p : str) : result Z :=
  let last_line : result Z := Ok (if 15 <=? length p then 20%Z else 0%Z) in
  if contains (lit "_1_") p then
    match split (lit "_1_") p with
    | [n; s] =>
        let score := 0%Z in
        let score := if length n =? 18 then (score + 100)%Z
                     else if 16 <=? length n then (score + 80)%Z
                     else score in
        let score := if length s =? 3 then (score + 50)%Z else score in
        Ok (score + 20)%Z
    | _ => Raise ValueError
    end
  else if contains (lit "_1") p then
    match split (lit "_1") p with
    | n :: _ => if 15 <=? length n then Ok 60%Z else last_line
    | [] => Raise IndexError
    end
  else last_line.

Definition _extract_from_text (text : str) : result (list str) :=
  let text := _clean_text text in
  for_each
    (fun found pat =>
       for_each
         (fun found m =>
            bind (_norm m) (fun norm =>
            match norm with
            | [] => Ok found
            | _ => Ok (found ++ [norm])
            end))
         (finditer pat text) found)
    patterns [].

(** One pass of the loop filling [score_map], for an occurrence of [c]
    scored [sc]. *)
Definition score_map_step (score_map : gmap str Z) (c : str) (sc : Z) : gmap str Z :=
  <[c := Z.max (default 0%Z (score_map !! c)) sc]> score_map.

Definition build_score_map (all_cands : list str) : result (gmap str Z) :=
  for_each (fun score_map c => bind (_score c) (fun sc => Ok (score_map_step score_map c sc)))
    all_cands ∅.

(** The reference handed to the refiner. *)
Definition reference_of (self : t) (image_name : option str) : option str :=
  match image_name with
  | Some (c :: n) => gt_map self !! (c :: n)
  | _ => None
  end.

Definition extract_best_from_texts (self : t) (texts : list str)
  (image_name : option str) : result (option str) :=
  bind (for_each (fun all_cands t =>
                    bind (_extract_from_text t) (fun found => Ok (all_cands ++ found)))
          texts [])
    (fun all_cands =>
       match all_cands with
       | [] => Ok None
       | _ =>
           bind (build_score_map all_cands) (fun score_map =>
           let gt := reference_of self image_name in
           PatternRefiner.choose_best (refiner self) all_cands score_map gt)
       end).

End TextExtractor.

(** ** [src/ocr_engine.py]

    The recognizers are outside the program: [image_to_string] stands for
    [pytesseract.image_to_string], [readtext] for the texts that
    [reader.readtext] returns with their boxes (after the conversion of the
    image to RGB), and [generate_variants] for the image transformations
    of [_generate_variants] together with the conversion to gray that
    precedes it.  The first two may raise. *)

Module OCREngine.

Section Recognizers.

Variable image : Type.
Variable image_to_string : image -> string -> result str.
Variable readtext : image -> result (list str).
Variable generate_variants : image -> list image.

Record t := { use_easyocr : bool; reader : bool; tess_configs : list string }.

Definition _ocr_tess (self : t) (img : image) : list str :=
  foldl (fun texts cfg =>
           match image_to_string img cfg with
           | Ok s => match strip s with
                     | [] => texts
                     | x => texts ++ [x]
                     end
           | Raise _ => texts
           end)
    [] (tess_configs self).

Definition _ocr_easy (self : t) (img : image) : list str :=
  if negb (use_easyocr self) || negb (reader self) then []
  else match readtext img with
       | Ok res =>
           let texts := List.filter (fun x => negb (bool_decide (x = []))) res in
           match texts with
           | [] => texts
           | _ => texts ++ [join (lit " ") texts]
           end
       | Raise _ => []
       end.

(** The last loop of [ocr_rois]. *)
Definition dedupe (out : list str) : list str :=
  foldl (fun final t =>
           match strip t with
           | [] => final
           | x => if decide (x ∈ final) then final else final ++ [x]
           end)
    [] out.

Definition ocr_rois (self : t) (rois : list image) : list str :=
  let out :=
    foldl (fun out roi =>
             let out := foldl (fun out v => out ++ _ocr_tess self v) out
                          (generate_variants roi) in
             out ++ _ocr_easy self roi)
      [] rois in
  dedupe out.

End Recognizers.

End OCREngine.

(** ** [src/barcode_reader.py] *)

Module BarcodeReader.

(** [\d{10,}] *)
Definition re_long_digits : Re.pattern := [Re.Rep is_decimal 10 None].

(** [x < y] on strings: the order of the code points, the shorter of two
    strings first when it starts the other. *)
Fixpoint str_ltb (x y : str) : bool :=
  match x, y with
  | _, [] => false
  | [], _ :: _ => true
  | a :: x', b :: y' =>
      ((a <? b)%N) || ((a =? b)%N && str_ltb x' y')
  end.

(** The order of the keys [(-len(x), x)]. *)
Definition key_ltb (x y : str) : bool :=
  (length y <? length x) || ((length x =? length y) && str_ltb x y).

Fixpoint insert_sorted (x : str) (l : list str) : list str :=
  match l with
  | [] => [x]
  | y :: l' => if key_ltb y x then y :: insert_sorted x l' else x :: y :: l'
  end.

(** [sorted(s, key=lambda x: (-len(x), x))]: the result of a sort of
    distinct strings by this key does not depend on the order in which the
    set yields them. *)
Definition sorted_by_key (s : gset str) : list str :=
  foldr insert_sorted [] (elements s).

(** [decode_digits], from the texts that [decode_texts] returns. *)
Definition decode_digits (texts : list str) : list str :=
  let candidates :=
    foldl (fun candidates t =>
             foldl (fun candidates m =>
                      if 15 <=? length m then candidates ++ [m] else candidates)
               candidates (Re.finditer re_long_digits t))
      [] texts in
  sorted_by_key (list_to_set candidates).

Definition choose_best_number (candidates : list str) : result (option str) :=
  match candidates with
  | [] => Ok None
  | _ =>
      match List.filter (fun c => length c =? 18) candidates with
      | x :: _ => Ok (Some x)
      | [] => bind (PatternRefiner.max_by (fun c => Z.of_nat (length c)) candidates)
                (fun b => Ok (Some b))
      end
  end.

End BarcodeReader.

(** ** [src/utils.py] *)

Module Utils.

(** [load_ground_truth], from the rows that [csv.reader] yields; None
    stands for a path that does not exist. *)
Definition load_ground_truth (file : option (list (list str))) : gmap str str :=
  match file with
  | None => ∅
  | Some rows =>
      foldl (fun gt row =>
               match row with
               | image_name :: truth :: _ => <[strip image_name := strip truth]> gt
               | _ => gt
               end)
        ∅ rows
  end.

End Utils.

(** ** [src/test_batch.py] and [src/app.py]

    [basename] stands for [os.path.basename], [get_candidate_rois] and
    [ocr_rois] for the methods of the preprocessor and of the OCR engine,
    which the callers invoke outside any [try] and which may raise. *)

Module Batch.

(** [x or ""]. *)
Definition or_empty (x : option str) : str :=
  match x with
  | Some (c :: s) => c :: s
  | _ => []
  end.

Section Pipeline.

Variable image : Type.
Variable basename : str -> str.
Variable get_candidate_rois : str -> result (list image).
Variable ocr_rois : list image -> result (list str).

Definition process_single (img_path : str) (extractor : TextExtractor.t) : result str :=
  let img_name := basename img_path in
  bind (get_candidate_rois img_path) (fun rois =>
  match rois with
  | [] => Ok []
  | _ =>
      bind (ocr_rois rois) (fun ocr_texts =>
      bind (TextExtractor.extract_best_from_texts extractor ocr_texts (Some img_name))
        (fun prediction => Ok (or_empty prediction)))
  end).

(** [run_inference] of [app.py], whose extractor has no ground truth. *)
Definition run_inference (image_path : str) : result str :=
  bind (get_candidate_rois image_path) (fun rois =>
  match rois with
  | [] => Ok []
  | _ =>
      bind (ocr_rois rois) (fun ocr_texts =>
      bind (TextExtractor.extract_best_from_texts (TextExtractor.init None None)
              ocr_texts None)
        (fun pattern => Ok (or_empty pattern)))
  end).

End Pipeline.

End Batch.

Import Re PatternRefiner TextExtractor.

(** ** Vocabulary of the specification *)

(** [[a-z]]. *)
Definition is_lower (c : char) : bool := between 97 122 c.

(** The canonical forms of a candidate; [min_digits] and [min_suffix] are
    the least numbers of digits and of letters a candidate must have. *)
Definition digits_1_suffix (min_digits min_suffix : nat) (c : str) : Prop :=
  exists D L, c = D ++ lit "_1_" ++ L /\ min_digits <= length D /\
              forallb is_digit D = true /\
              forallb is_lower L = true /\ min_suffix <= length L.

Definition digits_1 (min_digits : nat) (c : str) : Prop :=
  exists D, c = D ++ lit "_1" /\ min_digits <= length D /\ forallb is_digit D = true.

Definition bare_digits (min_digits : nat) (c : str) : Prop :=
  c <> [] /\ min_digits <= length c /\ forallb is_digit c = true.

Definition canonical (min_digits min_suffix : nat) (c : str) : Prop :=
  digits_1_suffix min_digits min_suffix c \/ digits_1 min_digits c \/
  bare_digits min_digits c.

(** [s] contains a run of at least [n] consecutive decimal digits, those
    that [\d] matches. *)
Fixpoint has_digit_run (n : nat) (s : str) : bool :=
  (n <=? span is_decimal s) ||
  match s with
  | [] => false
  | _ :: s' => has_digit_run n s'
  end.

(** Eighteen times the Arabic-Indic digit one, U+0661. *)
Definition arabic_indic_18 : str := repeat 1633%N 18.

(** Every decimal digit of [s] is one of 0 to 9. *)
Definition ascii_digits_only (s : str) : bool :=
  forallb (fun c => implb (is_decimal c) (is_digit c)) s.

(** The loop filling [score_map], run over occurrences given with their
    scores. *)
Definition aggregate (occs : list (str * Z)) : gmap str Z :=
  foldl (fun score_map o => score_map_step score_map o.1 o.2) ∅ occs.

(** [b] is the first element of [l] with the greatest key. *)
Definition first_max (key : str -> Z) (l : list str) (b : str) : Prop :=
  exists l1 l2, l = l1 ++ b :: l2 /\
                (forall c, c ∈ l1 -> (key c < key b)%Z) /\
                (forall c, c ∈ l2 -> (key c <= key b)%Z).

(** The candidates in the order of their first occurrence. *)
Fixpoint first_seen (l : list str) : list str :=
  match l with
  | [] => []
  | c :: l' => c :: filter (fun x => x <> c) (first_seen l')
  end.

(** The score the refiner reads for [c]. *)
Definition score_in (score_map : gmap str Z) (c : str) : Z :=
  default 0%Z (score_map !! c).

(** The edit distance between the first [i] characters of [a] and the first
    [j] characters of [b]: the least number of insertions, deletions and
    substitutions, by the recurrence of Wagner and Fischer. *)
Fixpoint lev (a b : str) (i : nat) : nat -> nat :=
  fix lev_i (j : nat) : nat :=
    match i, j with
    | O, _ => j
    | _, O => i
    | S i', S j' =>
        Nat.min (lev a b i' j + 1)
          (Nat.min (lev_i j' + 1)
             (lev a b i' j' + if decide (a !! i' = b !! j') then 0 else 1))
    end.

Definition levenshtein (a b : str) : nat := lev a b (length a) (length b).

(** Number of characters of [s] in the class [cls]. *)
Definition count (cls : char -> bool) (s : str) : nat :=
  length (List.filter cls s).

(** An upper bound on the number of occurrences of the character [x] in a
    match of the pattern, when there is one. *)
Fixpoint budget (x : ascii) (p : pattern) : option nat :=
  match p with
  | [] => Some 0
  | Rep c _ hi :: p' =>
      match (if c (ch x) then hi else Some 0), budget x p' with
      | Some h, Some n => Some (h + n)
      | _, _ => None
      end
  | _ :: p' => budget x p'
  end.

(** The table has [la + 1] rows of [lb + 1] cells. *)
Definition dims (la lb : nat) (dp : table) : Prop :=
  length dp = la + 1 /\ Forall (fun row => length row = lb + 1) dp.

(** The table holds the distances of the prefixes for column 0 and for
    every row before [k]. *)
Definition filled (a b : str) (k : nat) (dp : table) : Prop :=
  dims (length a) (length b) dp /\
  (forall i, i <= length a -> get dp i 0 = i) /\
  (forall i j, i < k -> j <= length b -> get dp i j = lev a b i j).

(** The score the specification gives to each form. *)
Definition spec_score_suffix (D L : str) : Z :=
  (20 + (if (length D =? 18)%nat then 100 else if (16 <=? length D)%nat then 80 else 0)
      + (if (length L =? 3)%nat then 50 else 0))%Z.

Definition spec_score_digits_1 (D : str) : Z :=
  if 15 <=? length D then 60%Z else 0%Z.

Definition spec_score_bare (D : str) : Z :=
  if 15 <=? length D then 20%Z else 0%Z.

(** The scenario of the specification. *)
Definition waybill : str := lit "156387426414724544_1_lwv".

Definition scenario_pool : list str :=
  [lit "reverseWaybill 156387426414724544_1_lWV"; lit "156387426414724544_1_lWV"].

(** The shape of a complete code: 18 digits, [_1_], 3 lower-case letters. *)
Definition complete_code (c : str) : Prop :=
  exists D L, c = D ++ lit "_1_" ++ L /\
              forallb is_digit D = true /\ forallb is_lower L = true /\
              length D = 18 /\ length L = 3.

(** The three forms, as [_norm] builds them: a digit run, the separator
    and lower-case letters, in which the run and the letters may be empty. *)
Inductive form : str -> Prop :=
| form_suffix D L :
    forallb is_digit D = true -> forallb is_lower L = true ->
    form (D ++ lit "_1_" ++ L)
| form_digits_1 D :
    forallb is_digit D = true -> form (D ++ lit "_1")
| form_bare D :
    forallb is_digit D = true -> form D.

(** Facts about the character classes, by arithmetic on the code points. *)
Ltac classes :=
  unfold non, is_char, is_digit, is_alpha, is_lower, is_space, between in *;
  repeat match goal with
         | |- context [ch ?a] => let v := eval vm_compute in (ch a) in
                                 change (ch a) with v
         | H : context [ch ?a] |- _ => let v := eval vm_compute in (ch a) in
                                       change (ch a) with v in H
         end;
  repeat (progress rewrite ?negb_true_iff, ?negb_false_iff, ?orb_true_iff,
            ?orb_false_iff, ?andb_true_iff, ?andb_false_iff, ?N.leb_le, ?N.leb_gt,
            ?N.eqb_eq, ?N.eqb_neq in * );
  lia.

(** * Properties *)

(** ** Selection on an empty candidate list *)

Lemma for_each_extract_nil (texts : list str) :
  (forall t, t ∈ texts -> _extract_from_text t = Ok []) ->
  for_each (fun all_cands t =>
              bind (_extract_from_text t) (fun found => Ok (all_cands ++ found)))
    texts [] = Ok [].
Proof.
  induction texts as [|t texts IH]; intros H; [reflexivity|].
  cbn [for_each]. rewrite (H t) by left. cbn [bind app].
  apply IH. intros t' Ht'. apply H. by right.
Qed.

(** C8: with no candidate the selector answers None whatever the reference,
    and so does the extractor when no text yields a candidate. *)
Theorem empty_candidates_give_none :
  (forall self score_map ground_truth,
     choose_best self [] score_map ground_truth = Ok None) /\
  (forall self texts image_name,
     (forall t, t ∈ texts -> _extract_from_text t = Ok []) ->
     extract_best_from_texts self texts image_name = Ok None).
Proof.
  split; [reflexivity|].
  intros self texts image_name H. unfold extract_best_from_texts.
  by rewrite for_each_extract_nil.
Qed.

Lemma empty_candidates_give_none_witness :
  extract_best_from_texts
    {| gt_map := {[ lit "a.jpg" := waybill ]}; refiner := {| max_snap := 30 |} |}
    [lit "no code here"; lit "1234"] (Some (lit "a.jpg")) = Ok None.
Proof.
  apply (proj2 empty_candidates_give_none).
  intros t Ht. repeat (apply elem_of_cons in Ht as [->|Ht]; [by vm_compute|]).
  by apply elem_of_nil in Ht.
Defined.

(** ** Which reference reaches the refiner *)

Lemma reference_of_Some self image_name g :
  reference_of self image_name = Some g <->
  exists n, image_name = Some n /\ n <> [] /\ gt_map self !! n = Some g.
Proof.
  unfold reference_of. split.
  - destruct image_name as [[|c n]|]; try discriminate.
    intros H. exists (c :: n). by repeat split.
  - intros (n & -> & Hn & Hg). by destruct n.
Qed.

Lemma extract_best_reference self texts name name' :
  reference_of self name = reference_of self name' ->
  extract_best_from_texts self texts name = extract_best_from_texts self texts name'.
Proof. unfold extract_best_from_texts. by intros ->. Qed.

(** C10: an empty reference is no reference.  The selector answers as in
    the mode without reference (and independently of the snap threshold it
    would have compared a distance with); the extractor looks a reference up
    only for a non-empty image name that the ground-truth map holds. *)
Theorem empty_reference_is_no_reference :
  (forall self raw_candidates score_map,
     choose_best self raw_candidates score_map (Some []) =
     choose_best self raw_candidates score_map None) /\
  (forall self self' raw_candidates score_map,
     choose_best self raw_candidates score_map (Some []) =
     choose_best self' raw_candidates score_map None) /\
  (forall self image_name g,
     reference_of self image_name = Some g <->
     exists n, image_name = Some n /\ n <> [] /\ gt_map self !! n = Some g) /\
  (forall self texts,
     extract_best_from_texts self texts (Some []) =
     extract_best_from_texts self texts None) /\
  (forall self texts n,
     gt_map self !! n = None ->
     extract_best_from_texts self texts (Some n) =
     extract_best_from_texts self texts None).
Proof.
  split; [by intros ? [|] ?|].
  split; [by intros ? ? [|] ?|].
  split; [apply reference_of_Some|].
  split; [intros; by apply extract_best_reference|].
  intros self texts n H. apply extract_best_reference.
  destruct n; [done|]. exact H.
Qed.

Lemma empty_reference_is_no_reference_witness :
  extract_best_from_texts
    {| gt_map := {[ lit "a.jpg" := waybill ]}; refiner := {| max_snap := 3 |} |}
    scenario_pool (Some (lit "b.jpg")) =
  extract_best_from_texts
    {| gt_map := {[ lit "a.jpg" := waybill ]}; refiner := {| max_snap := 3 |} |}
    scenario_pool None.
Proof.
  apply (proj2 (proj2 (proj2 (proj2 empty_reference_is_no_reference)))).
  by vm_compute.
Defined.

(** ** The scenario of the specification *)

(** C9: both raw strings normalize to the candidate
    [156387426414724544_1_lwv], each of them yields it as a candidate, and
    without a reference the extractor returns it. *)
Theorem end_to_end_scenario (self : TextExtractor.t) (image_name : option str) :
  reference_of self image_name = None ->
  Forall (fun t => _norm t = Ok waybill) scenario_pool /\
  Forall (fun t => exists found, _extract_from_text t = Ok found /\ waybill ∈ found)
    scenario_pool /\
  extract_best_from_texts self scenario_pool image_name = Ok (Some waybill).
Proof.
  intros Href. split; [|split].
  - repeat constructor; by vm_compute.
  - repeat constructor; eexists; (split; [by vm_compute|]); by left.
  - unfold extract_best_from_texts. rewrite Href. by vm_compute.
Qed.

Lemma end_to_end_scenario_witness :
  extract_best_from_texts (TextExtractor.init None None) scenario_pool None =
  Ok (Some waybill).
Proof.
  apply (end_to_end_scenario (TextExtractor.init None None) None). reflexivity.
Defined.

(** ** The score map *)

Lemma aggregate_snoc occs o :
  aggregate (occs ++ [o]) = score_map_step (aggregate occs) o.1 o.2.
Proof. unfold aggregate. by rewrite foldl_app. Qed.

Lemma score_map_step_lookup score_map c sc c' :
  score_map_step score_map c sc !! c' =
  if decide (c = c') then Some (Z.max (score_in score_map c) sc) else score_map !! c'.
Proof. unfold score_map_step, score_in. apply lookup_insert. Qed.

(** The entry of a candidate is the greatest score among its occurrences. *)
Lemma aggregate_max (occs : list (str * Z)) :
  Forall (fun o => (0 <= o.2)%Z) occs ->
  forall c,
    match aggregate occs !! c with
    | Some v => (c, v) ∈ occs /\ forall s, (c, s) ∈ occs -> (s <= v)%Z
    | None => forall s, (c, s) ∉ occs
    end.
Proof.
  induction occs as [|[c0 s0] occs IH] using rev_ind; intros Hpos c.
  - unfold aggregate. cbn. rewrite lookup_empty.
    intros s Hs. by apply elem_of_nil in Hs.
  - apply Forall_app in Hpos as [Hpos Hs0].
    apply Forall_inv in Hs0. cbn in Hs0.
    specialize (IH Hpos). rewrite aggregate_snoc, score_map_step_lookup. cbn.
    destruct (decide (c0 = c)) as [->|Hne].
    + specialize (IH c). unfold score_in.
      destruct (aggregate occs !! c) as [v|]; cbn.
      * destruct IH as [Hin Hmax].
        split.
        -- destruct (Z.max_spec v s0) as [[_ ->]|[_ ->]];
             rewrite elem_of_app, list_elem_of_singleton; auto.
        -- intros s Hs. apply elem_of_app in Hs as [Hs|Hs].
           ++ apply Hmax in Hs. lia.
           ++ apply list_elem_of_singleton in Hs. injection Hs as ->. lia.
      * split.
        -- rewrite Z.max_r by lia.
           rewrite elem_of_app, list_elem_of_singleton; auto.
        -- intros s [Hs|Hs]%elem_of_app; [by apply IH in Hs|].
           apply list_elem_of_singleton in Hs. injection Hs as ->. lia.
    + specialize (IH c).
      destruct (aggregate occs !! c) as [v|].
      * destruct IH as [Hin Hmax]. split.
        -- rewrite elem_of_app; auto.
        -- intros s [Hs|Hs]%elem_of_app; [by apply Hmax|].
           apply list_elem_of_singleton in Hs. congruence.
      * intros s [Hs|Hs]%elem_of_app; [by apply IH in Hs|].
        apply list_elem_of_singleton in Hs. congruence.
Qed.

Lemma _score_nonneg p sc : _score p = Ok sc -> (0 <= sc)%Z.
Proof.
  unfold _score. intros H.
  repeat match type of H with
         | context [if ?b then _ else _] => destruct b
         | context [match ?l with [] => _ | _ :: _ => _ end] => destruct l
         end; try discriminate; injection H as <-; lia.
Qed.

(** The loop of the source is [aggregate] over the candidates paired with
    their scores. *)
Lemma build_score_map_aggregate_from all_cands :
  forall occs0 score_map,
    for_each (fun score_map c =>
                bind (_score c) (fun sc => Ok (score_map_step score_map c sc)))
      all_cands (aggregate occs0) = Ok score_map ->
    exists occs, occs.*1 = all_cands /\
                 Forall (fun o => _score o.1 = Ok o.2) occs /\
                 score_map = aggregate (occs0 ++ occs).
Proof.
  induction all_cands as [|c cs IH]; intros occs0 score_map H.
  - injection H as <-. exists []. by rewrite app_nil_r.
  - cbn [for_each] in H. destruct (_score c) as [sc|] eqn:Hsc; [|discriminate].
    cbn [bind] in H.
    change (score_map_step (aggregate occs0) c sc)
      with (score_map_step (aggregate occs0) (c, sc).1 (c, sc).2) in H.
    rewrite <- aggregate_snoc in H.
    apply IH in H as (occs & Hfst & Hsc' & ->).
    exists ((c, sc) :: occs). split; [by cbn; f_equal|].
    split; [by constructor|]. by rewrite <- app_assoc.
Qed.

(** C5: the entry of a candidate in the score map is the greatest of the
    scores of its occurrences: the score of one of them, no smaller than
    that of any other.  For two occurrences scored [s1 < s2], in either
    order, the entry is [s2].  The map the extractor builds is this
    aggregation of the candidates with their scores. *)
Theorem score_map_keeps_maximum :
  (forall occs : list (str * Z),
     Forall (fun o => (0 <= o.2)%Z) occs ->
     forall c,
       match aggregate occs !! c with
       | Some v => (c, v) ∈ occs /\ forall s, (c, s) ∈ occs -> (s <= v)%Z
       | None => forall s, (c, s) ∉ occs
       end) /\
  (forall (c : str) (s1 s2 : Z),
     (0 <= s1 < s2)%Z ->
     aggregate [(c, s1); (c, s2)] !! c = Some s2 /\
     aggregate [(c, s2); (c, s1)] !! c = Some s2) /\
  (forall all_cands score_map,
     build_score_map all_cands = Ok score_map ->
     exists occs, occs.*1 = all_cands /\
                  Forall (fun o => _score o.1 = Ok o.2 /\ (0 <= o.2)%Z) occs /\
                  score_map = aggregate occs).
Proof.
  split; [exact aggregate_max|]. split.
  - intros c s1 s2 H. unfold aggregate. cbn [foldl fst snd].
    rewrite !score_map_step_lookup. rewrite !decide_True by done.
    unfold score_in. rewrite !score_map_step_lookup, !decide_True by done.
    unfold score_in. rewrite lookup_empty. cbn. split; f_equal; lia.
  - intros all_cands score_map H.
    apply (build_score_map_aggregate_from all_cands []) in H as (occs & H1 & H2 & ->).
    exists occs. split; [done|]. split; [|done].
    eapply Forall_impl; [exact H2|]. cbn. intros o Ho. split; [done|].
    by eapply _score_nonneg.
Qed.

Lemma score_map_keeps_maximum_witness :
  aggregate [(waybill, 20%Z); (waybill, 170%Z)] !! waybill = Some 170%Z /\
  aggregate [(waybill, 170%Z); (waybill, 20%Z)] !! waybill = Some 170%Z.
Proof.
  apply (proj1 (proj2 score_map_keeps_maximum) waybill 20%Z 170%Z). lia.
Defined.

(** ** The unique candidates *)

Lemma filter_id (P : str -> Prop) `{!forall x, Decision (P x)} (l : list str) :
  (forall x, x ∈ l -> P x) -> filter P l = l.
Proof.
  induction l as [|x l IH]; intros Hall; [done|].
  rewrite filter_cons_True by (apply Hall; left).
  f_equal. apply IH. intros y Hy. apply Hall. by right.
Qed.

Lemma unique_go_first_seen l :
  forall unique (seen : gset str),
    (forall x, x ∈ seen <-> x ∈ unique) ->
    unique_go unique seen l = unique ++ filter (fun x => x ∉ unique) (first_seen l).
Proof.
  induction l as [|c l IH]; intros unique seen Hseen; cbn [unique_go first_seen].
  - by rewrite app_nil_r.
  - destruct (decide (c ∈ seen)) as [Hin|Hnin].
    + rewrite (IH _ _ Hseen). f_equal.
      rewrite filter_cons_False by (rewrite <- Hseen; auto).
      rewrite list_filter_filter. apply list_filter_iff.
      intros x. split; [|tauto]. intros Hx. split; [done|].
      intros ->. apply Hx. by apply Hseen.
    + rewrite (IH (unique ++ [c]) ({[c]} ∪ seen)).
      * rewrite <- app_assoc. f_equal. cbn [app].
        rewrite filter_cons_True by (by rewrite <- Hseen).
        f_equal. rewrite list_filter_filter. apply list_filter_iff.
        intros x. rewrite elem_of_app, list_elem_of_singleton. tauto.
      * intros x. rewrite elem_of_union, elem_of_singleton, elem_of_app,
          list_elem_of_singleton, Hseen. tauto.
Qed.

(** [unique] lists the candidates in the order of their first occurrence. *)
Lemma unique_of_first_seen raw_candidates :
  unique_of raw_candidates = first_seen raw_candidates.
Proof.
  unfold unique_of. rewrite (unique_go_first_seen _ [] ∅) by set_solver.
  cbn [app]. apply filter_id. intros x _. apply not_elem_of_nil.
Qed.

Lemma elem_of_first_seen l x : x ∈ first_seen l <-> x ∈ l.
Proof.
  induction l as [|c l IH]; cbn [first_seen]; [done|].
  rewrite !elem_of_cons, list_elem_of_filter, IH.
  destruct (decide (x = c)); tauto.
Qed.

Lemma NoDup_first_seen l : NoDup (first_seen l).
Proof.
  induction l as [|c l IH]; cbn [first_seen]; constructor.
  - rewrite list_elem_of_filter. tauto.
  - by apply NoDup_filter.
Qed.

Lemma unique_of_cons c l : exists l', unique_of (c :: l) = c :: l'.
Proof. rewrite unique_of_first_seen. cbn [first_seen]. eauto. Qed.

(** ** Selection by score *)

Lemma max_fold key l :
  forall l0 b,
    first_max key l0 b ->
    first_max key (l0 ++ l)
      (foldl (fun best c => if (key best <? key c)%Z then c else best) b l).
Proof.
  induction l as [|c l IH]; intros l0 b Hb; cbn [foldl].
  - by rewrite app_nil_r.
  - replace (l0 ++ c :: l) with ((l0 ++ [c]) ++ l) by (by rewrite <- app_assoc).
    apply IH. destruct Hb as (l1 & l2 & -> & H1 & H2).
    destruct (Z.ltb_spec (key b) (key c)) as [Hlt|Hge].
    + exists (l1 ++ b :: l2), []. split; [done|]. split.
      * intros x [Hx|Hx]%elem_of_app; [apply H1 in Hx; lia|].
        apply elem_of_cons in Hx as [->|Hx]; [done|]. apply H2 in Hx. lia.
      * intros x Hx. by apply elem_of_nil in Hx.
    + exists l1, (l2 ++ [c]). split; [by rewrite <- app_assoc|]. split; [done|].
      intros x [Hx|Hx]%elem_of_app; [by apply H2|].
      apply list_elem_of_singleton in Hx as ->. lia.
Qed.

Lemma max_by_first_max key x l :
  exists b, max_by key (x :: l) = Ok b /\ first_max key (x :: l) b.
Proof.
  eexists. split; [reflexivity|].
  apply (max_fold key l [x] x). exists [], []. split; [done|].
  split; intros c Hc; by apply elem_of_nil in Hc.
Qed.

Lemma fallback_first_max unique score_map :
  unique <> [] ->
  exists b, fallback unique score_map = Ok (Some b) /\
            first_max (score_in score_map) unique b.
Proof.
  destruct unique as [|x l]; [done|]. intros _.
  destruct (max_by_first_max (score_in score_map) x l) as (b & Hb & Hmax).
  exists b. split; [|done]. unfold fallback.
  change (fun c => default 0%Z (score_map !! c)) with (score_in score_map).
  by rewrite Hb.
Qed.

Lemma choose_best_no_reference self raw_candidates score_map ground_truth :
  raw_candidates <> [] ->
  truthy ground_truth = false ->
  choose_best self raw_candidates score_map ground_truth =
  fallback (unique_of raw_candidates) score_map.
Proof.
  intros Hraw Hgt. destruct raw_candidates; [done|].
  by destruct ground_truth as [[|]|].
Qed.

(** ** The closest candidate *)

Lemma closest_fold gt l :
  forall c d,
    exists c' d',
      foldl (closest_step gt) (Some c, Some d) l = (Some c', Some d') /\
      d' <= d /\
      (forall x, x ∈ l -> d' <= _levenshtein x gt) /\
      ((c' = c /\ d' = d) \/ (c' ∈ l /\ d' = _levenshtein c' gt)).
Proof.
  induction l as [|x l IH]; intros c d; cbn [foldl].
  - exists c, d. split; [done|]. split; [done|]. split; [|by left].
    intros x Hx. by apply elem_of_nil in Hx.
  - unfold closest_step at 2. cbn [snd].
    destruct (Nat.ltb_spec (_levenshtein x gt) d) as [Hlt|Hge].
    + destruct (IH x (_levenshtein x gt)) as (c' & d' & -> & Hle & Hall & Hc').
      exists c', d'. split; [done|]. split; [lia|]. split.
      * intros y [->|Hy]%elem_of_cons; [done|]. by apply Hall.
      * right. destruct Hc' as [[-> ->]|[Hin ->]]; split; try done; by constructor.
    + destruct (IH c d) as (c' & d' & -> & Hle & Hall & Hc').
      exists c', d'. split; [done|]. split; [done|]. split.
      * intros y [->|Hy]%elem_of_cons; [lia|]. by apply Hall.
      * destruct Hc' as [[-> ->]|[Hin ->]]; [by left|right].
        split; [by constructor|done].
Qed.

(** On a non-empty list the loop ends with the least distance and a
    candidate at that distance. *)
Lemma closest_min gt unique :
  unique <> [] ->
  exists c d,
    closest gt unique = (Some c, Some d) /\
    c ∈ unique /\ _levenshtein c gt = d /\
    forall x, x ∈ unique -> d <= _levenshtein x gt.
Proof.
  destruct unique as [|x l]; [done|]. intros _.
  unfold closest. cbn [foldl]. unfold closest_step at 2. cbn [snd].
  destruct (closest_fold gt l x (_levenshtein x gt)) as (c & d & -> & Hle & Hall & Hc).
  exists c, d. split; [done|]. split; [|split].
  - destruct Hc as [[-> _]|[Hin _]]; by constructor.
  - by destruct Hc as [[-> ->]|[_ ->]].
  - intros y [->|Hy]%elem_of_cons; [done|]. by apply Hall.
Qed.

(** ** The distance table *)

Lemma get_set la lb dp i j v i' j' :
  dims la lb dp -> i <= la -> j <= lb ->
  get (set dp i j v) i' j' = if decide (i = i' /\ j = j') then v else get dp i' j'.
Proof.
  intros [Hlen Hrows] Hi Hj. unfold get, set.
  destruct (lookup_lt_is_Some_2 dp i) as [row Hrow]; [lia|]. rewrite Hrow.
  assert (length row = lb + 1) as Hrowlen
    by (eapply (Forall_lookup_1 _ dp) in Hrows; eauto).
  destruct (decide (i = i')) as [<-|Hne].
  - rewrite list_lookup_insert_eq by lia. cbn.
    destruct (decide (j = j')) as [<-|Hne'].
    + rewrite list_lookup_insert_eq by lia. by rewrite decide_True.
    + rewrite list_lookup_insert_ne by done.
      rewrite decide_False by tauto. by rewrite Hrow.
  - rewrite list_lookup_insert_ne by done. by rewrite decide_False by tauto.
Qed.

Lemma set_dims la lb dp i j v : dims la lb dp -> dims la lb (set dp i j v).
Proof.
  intros [Hlen Hrows]. unfold set. destruct (dp !! i) as [row|] eqn:Hrow; [|done].
  split; [by rewrite length_insert|].
  apply Forall_insert; [done|]. rewrite length_insert.
  by eapply (Forall_lookup_1 _ dp) in Hrows.
Qed.

(** A loop over [range(start, start + n)] keeps an invariant indexed by the
    next value of the counter. *)
Lemma foldl_seq_inv {A} (f : A -> nat -> A) (P : nat -> A -> Prop) start n x :
  P start x ->
  (forall k y, start <= k < start + n -> P k y -> P (S k) (f y k)) ->
  P (start + n) (foldl f x (seq start n)).
Proof.
  induction n as [|n IH]; intros H0 Hstep.
  - by rewrite Nat.add_0_r.
  - rewrite seq_S, foldl_app, Nat.add_succ_r. cbn [foldl].
    apply Hstep; [lia|]. apply IH; [done|].
    intros k y Hk. apply Hstep. lia.
Qed.

Lemma lev_0_r a b i : lev a b i 0 = i.
Proof. by destruct i. Qed.

Lemma lev_0_l a b j : lev a b 0 j = j.
Proof. by destruct j. Qed.

Lemma lev_S a b i j :
  lev a b (S i) (S j) =
  Nat.min (lev a b i (S j) + 1)
    (Nat.min (lev a b (S i) j + 1)
       (lev a b i j + if decide (a !! i = b !! j) then 0 else 1)).
Proof. reflexivity. Qed.

Lemma lev_diag a i : lev a a i i = 0.
Proof.
  induction i as [|i IH]; [done|].
  rewrite lev_S, IH, decide_True by done. lia.
Qed.

Lemma init_column la lb dp :
  dims la lb dp ->
  dims la lb (foldl (fun dp i => set dp i 0 i) dp (seq 0 (la + 1))) /\
  forall i, i <= la ->
    get (foldl (fun dp i => set dp i 0 i) dp (seq 0 (la + 1))) i 0 = i.
Proof.
  intros Hdims.
  pose proof (foldl_seq_inv (fun dp i => set dp i 0 i)
                (fun k dp => dims la lb dp /\ forall i, i < k -> get dp i 0 = i)
                0 (la + 1) dp) as H.
  cbn beta in H. destruct H as [H1 H2].
  - split; [done|]. lia.
  - intros k y Hk [Hd Hy]. split; [by apply set_dims|].
    intros i Hi. rewrite (get_set la lb) by (done || lia).
    case_decide; [lia|]. apply Hy. lia.
  - split; [done|]. intros i Hi. apply H2. lia.
Qed.

Lemma init_row la lb dp :
  dims la lb dp ->
  (forall i, i <= la -> get dp i 0 = i) ->
  let dp' := foldl (fun dp j => set dp 0 j j) dp (seq 0 (lb + 1)) in
  dims la lb dp' /\
  (forall i, i <= la -> get dp' i 0 = i) /\
  (forall j, j <= lb -> get dp' 0 j = j).
Proof.
  intros Hdims Hcol.
  pose proof (foldl_seq_inv (fun dp j => set dp 0 j j)
                (fun k dp => dims la lb dp /\
                             (forall i, i <= la -> get dp i 0 = i) /\
                             forall j, j < k -> get dp 0 j = j)
                0 (lb + 1) dp) as H.
  cbn beta in H. destruct H as (H1 & H2 & H3).
  - split; [done|]. split; [done|]. lia.
  - intros k y Hk (Hd & Hy1 & Hy2). split; [by apply set_dims|]. split.
    + intros i Hi. rewrite (get_set la lb) by (done || lia).
      case_decide; [lia|]. by apply Hy1.
    + intros j Hj. rewrite (get_set la lb) by (done || lia).
      case_decide; [lia|]. apply Hy2. lia.
  - cbn zeta. split; [done|]. split; [done|]. intros j Hj. apply H3. lia.
Qed.

(** One pass of the inner loop fills row [k]. *)
Lemma fill_row a b k dp :
  1 <= k <= length a ->
  filled a b k dp ->
  filled a b (S k) (foldl (fun dp j => cell a b dp k j) dp (seq 1 (length b))).
Proof.
  intros Hk (Hdims & Hcol & Hrows).
  pose proof (foldl_seq_inv (fun dp j => cell a b dp k j)
                (fun m dp => filled a b k dp /\
                             forall j, j < m -> get dp k j = lev a b k j)
                1 (length b) dp) as H.
  cbn beta in H. destruct H as [(H1 & H2 & H3) H4].
  - split; [done|]. intros j Hj. replace j with 0 by lia.
    rewrite lev_0_r. apply Hcol. lia.
  - intros m y Hm [(Hd & Hy1 & Hy2) Hy3]. unfold cell.
    split; [split; [by apply set_dims|split]|].
    + intros i Hi. rewrite (get_set (length a) (length b)) by (done || lia).
      case_decide; [lia|]. by apply Hy1.
    + intros i j Hi Hj. rewrite (get_set (length a) (length b)) by (done || lia).
      case_decide; [lia|]. by apply Hy2.
    + intros j Hj. rewrite (get_set (length a) (length b)) by (done || lia).
      case_decide as Hjm; [|apply Hy3; lia].
      destruct Hjm as [_ <-].
      destruct k as [|k']; [lia|]. destruct m as [|m']; [lia|].
      rewrite lev_S. cbn [Nat.sub]. rewrite !Nat.sub_0_r.
      rewrite (Hy2 k' (S m')), (Hy2 k' m') by lia.
      by rewrite (Hy3 m') by lia.
  - split; [done|]. split; [done|].
    intros i j Hi Hj. destruct (decide (i = k)) as [->|Hne].
    + apply H4. lia.
    + apply H3; lia.
Qed.

(** [_levenshtein] computes the edit distance. *)
Lemma _levenshtein_correct a b : _levenshtein a b = levenshtein a b.
Proof.
  unfold _levenshtein, levenshtein. case_decide as Hab.
  - subst b. by rewrite lev_diag.
  - cbv zeta.
    set (dp0 := replicate (length a + 1) (replicate (length b + 1) 0)).
    assert (dims (length a) (length b) dp0) as Hd0.
    { unfold dp0. split; [by rewrite length_replicate|].
      apply Forall_replicate. by rewrite length_replicate. }
    destruct (init_column _ _ _ Hd0) as [Hd1 Hc1].
    set (dp1 := foldl _ dp0 _) in *.
    destruct (init_row _ _ _ Hd1 Hc1) as (Hd2 & Hc2 & Hr2).
    set (dp2 := foldl _ dp1 _) in *.
    pose proof (foldl_seq_inv
                  (fun dp i => foldl (fun dp j => cell a b dp i j) dp (seq 1 (length b)))
                  (filled a b) 1 (length a) dp2) as H.
    destruct H as (_ & _ & H).
    + split; [done|]. split; [done|]. intros i j Hi Hj.
      replace i with 0 by lia. rewrite lev_0_l. by apply Hr2.
    + intros k y Hk Hy. apply fill_row; [lia|done].
    + apply H; lia.
Qed.

Example levenshtein_kitten : _levenshtein (lit "kitten") (lit "sitting") = 3.
Proof. by vm_compute. Qed.

(** ** The selector *)

Lemma choose_best_reference self raw_candidates score_map gt :
  raw_candidates <> [] -> gt <> [] ->
  exists c d,
    c ∈ unique_of raw_candidates /\
    levenshtein c gt = d /\
    (forall x, x ∈ unique_of raw_candidates -> d <= levenshtein x gt) /\
    choose_best self raw_candidates score_map (Some gt) =
    if (Z.of_nat d <=? max_snap self)%Z then Ok (Some gt)
    else choose_best self raw_candidates score_map None.
Proof.
  intros Hraw Hgt.
  destruct raw_candidates as [|r raw]; [done|].
  destruct gt as [|g0 g']; [done|].
  destruct (unique_of_cons r raw) as [l' Hu].
  destruct (closest_min (g0 :: g') (unique_of (r :: raw))) as (c & d & Hcl & Hin & Hd & Hmin).
  { by rewrite Hu. }
  exists c, d. split; [done|]. split; [by rewrite <- _levenshtein_correct|].
  split.
  - intros x Hx. rewrite <- _levenshtein_correct. by apply Hmin.
  - unfold choose_best. by rewrite Hcl.
Qed.

(** C1: with candidates and a reference, the selector takes the least edit
    distance [d] from a unique candidate to the reference; when [d] is at
    most the snap threshold it returns the reference itself, otherwise it
    answers as it does without reference, by score.  With the default
    threshold 3 a least distance of 3 snaps and one of 4 does not.  (A
    reference counts as supplied when it is not the empty string.) *)
Theorem snap_to_reference self raw_candidates score_map gt :
  raw_candidates <> [] -> gt <> [] ->
  exists c d,
    c ∈ unique_of raw_candidates /\
    levenshtein c gt = d /\
    (forall x, x ∈ unique_of raw_candidates -> d <= levenshtein x gt) /\
    (forall x, _levenshtein x gt = levenshtein x gt) /\
    ((Z.of_nat d <= max_snap self)%Z ->
     choose_best self raw_candidates score_map (Some gt) = Ok (Some gt)) /\
    ((max_snap self < Z.of_nat d)%Z ->
     choose_best self raw_candidates score_map (Some gt) =
     choose_best self raw_candidates score_map None /\
     choose_best self raw_candidates score_map (Some gt) =
     fallback (unique_of raw_candidates) score_map) /\
    (max_snap self = 3%Z ->
     (d = 3 -> choose_best self raw_candidates score_map (Some gt) = Ok (Some gt)) /\
     (d = 4 -> choose_best self raw_candidates score_map (Some gt) =
               choose_best self raw_candidates score_map None)).
Proof.
  intros Hraw Hgt.
  destruct (choose_best_reference self raw_candidates score_map gt Hraw Hgt)
    as (c & d & Hin & Hd & Hmin & Hres).
  exists c, d. split; [done|]. split; [done|]. split; [done|].
  split; [intros x; apply _levenshtein_correct|].
  split; [|split].
  - intros Hle. rewrite Hres. by rewrite (proj2 (Z.leb_le _ _) Hle).
  - intros Hlt. rewrite Hres. rewrite (proj2 (Z.leb_gt _ _) Hlt).
    split; [done|]. by apply choose_best_no_reference.
  - intros H3. rewrite Hres, H3. split; intros ->; reflexivity.
Qed.

Lemma snap_to_reference_witness :
  choose_best {| max_snap := 3 |}
    [lit "156387426414724544"; lit "156387426414724544_1_lwv_xy"] ∅ (Some waybill) =
  Ok (Some waybill).
Proof.
  destruct (snap_to_reference {| max_snap := 3 |}
              [lit "156387426414724544"; lit "156387426414724544_1_lwv_xy"] ∅ waybill)
    as (c & d & _ & _ & Hmin & _ & Hsnap & _); [done|done|].
  apply Hsnap.
  assert (d <= levenshtein (lit "156387426414724544_1_lwv_xy") waybill) as Hd.
  { apply Hmin. rewrite unique_of_first_seen, elem_of_first_seen.
    right. left. }
  assert (levenshtein (lit "156387426414724544_1_lwv_xy") waybill = 3) as H3
    by (rewrite <- _levenshtein_correct; by vm_compute).
  cbn [max_snap]. lia.
Defined.

Example snap_at_distance_3 :
  _levenshtein (lit "156387426414724544_1_lwv_xy") waybill = 3 /\
  choose_best {| max_snap := 3 |} [lit "156387426414724544_1_lwv_xy"]
    {[ lit "156387426414724544_1_lwv_xy" := 0%Z ]} (Some waybill) = Ok (Some waybill).
Proof. by vm_compute. Qed.

Example no_snap_at_distance_4 :
  _levenshtein (lit "156387426414724544_1_lwv_xyz") waybill = 4 /\
  choose_best {| max_snap := 3 |} [lit "156387426414724544_1_lwv_xyz"]
    {[ lit "156387426414724544_1_lwv_xyz" := 0%Z ]} (Some waybill) =
  Ok (Some (lit "156387426414724544_1_lwv_xyz")).
Proof. by vm_compute. Qed.

(** C7: without a reference (none, or an empty one), or when every unique
    candidate is farther from the reference than the snap threshold, the
    selector returns the first of the unique candidates, taken in the order
    of their first occurrence, whose score in the score map no other
    candidate exceeds. *)
Theorem highest_score_first_seen self raw_candidates score_map ground_truth :
  raw_candidates <> [] ->
  (truthy ground_truth = false \/
   exists gt, ground_truth = Some gt /\
              forall c, c ∈ unique_of raw_candidates ->
                        (max_snap self < Z.of_nat (levenshtein c gt))%Z) ->
  exists best,
    choose_best self raw_candidates score_map ground_truth = Ok (Some best) /\
    unique_of raw_candidates = first_seen raw_candidates /\
    first_max (score_in score_map) (first_seen raw_candidates) best /\
    best ∈ raw_candidates /\
    (forall c, c ∈ raw_candidates -> (score_in score_map c <= score_in score_map best)%Z).
Proof.
  intros Hraw Hgt.
  assert (choose_best self raw_candidates score_map ground_truth =
          fallback (unique_of raw_candidates) score_map) as Hfall.
  { destruct Hgt as [Hf|(gt & -> & Hfar)]; [by apply choose_best_no_reference|].
    destruct gt as [|g0 g']; [by apply choose_best_no_reference|].
    destruct (choose_best_reference self raw_candidates score_map (g0 :: g'))
      as (c & d & Hin & Hd & _ & ->); [done..|].
    specialize (Hfar c Hin). rewrite Hd in Hfar.
    rewrite (proj2 (Z.leb_gt _ _) Hfar). by apply choose_best_no_reference. }
  destruct (fallback_first_max (unique_of raw_candidates) score_map)
    as (best & Hbest & Hmax).
  { destruct raw_candidates as [|r raw]; [done|].
    destruct (unique_of_cons r raw) as [l' ->]. done. }
  rewrite unique_of_first_seen in Hmax.
  exists best. split; [by rewrite Hfall|]. split; [apply unique_of_first_seen|].
  split; [done|].
  destruct Hmax as (l1 & l2 & Heq & H1 & H2).
  assert (forall c, c ∈ raw_candidates <-> c ∈ l1 \/ c = best \/ c ∈ l2) as Hel.
  { intros c. rewrite <- elem_of_first_seen, Heq, elem_of_app, elem_of_cons. tauto. }
  split; [apply Hel; auto|].
  intros c [Hc|[->|Hc]]%Hel; [apply H1 in Hc; lia|lia|by apply H2].
Qed.

Lemma highest_score_first_seen_witness :
  exists best,
    choose_best {| max_snap := 3 |}
      [lit "1234567890123456"; lit "123456789012345678_1_abc";
       lit "1234567890123456"; lit "123456789012345678_1_xyz"]
      {[ lit "1234567890123456" := 20%Z; lit "123456789012345678_1_abc" := 170%Z;
         lit "123456789012345678_1_xyz" := 170%Z ]} None = Ok (Some best).
Proof.
  destruct (highest_score_first_seen {| max_snap := 3 |}
              [lit "1234567890123456"; lit "123456789012345678_1_abc";
               lit "1234567890123456"; lit "123456789012345678_1_xyz"]
              {[ lit "1234567890123456" := 20%Z;
                 lit "123456789012345678_1_abc" := 170%Z;
                 lit "123456789012345678_1_xyz" := 170%Z ]} None)
    as (best & Hbest & _); [done|by left|].
  by exists best.
Defined.

Example ties_go_to_the_first_seen :
  choose_best {| max_snap := 3 |}
    [lit "1234567890123456"; lit "123456789012345678_1_abc";
     lit "1234567890123456"; lit "123456789012345678_1_xyz"]
    {[ lit "1234567890123456" := 20%Z; lit "123456789012345678_1_abc" := 170%Z;
       lit "123456789012345678_1_xyz" := 170%Z ]} None =
  Ok (Some (lit "123456789012345678_1_abc")).
Proof. by vm_compute. Qed.

(** ** Character classes *)

Lemma digit_not_space c : is_digit c = true -> is_space c = false.
Proof. classes. Qed.

Lemma digit_not_underscore c : is_digit c = true -> non (is_char "_") c = true.
Proof. classes. Qed.

Lemma lower_not_space c : is_lower c = true -> is_space c = false.
Proof. classes. Qed.

Lemma lower_not_underscore c : is_lower c = true -> non (is_char "_") c = true.
Proof. classes. Qed.

Lemma lower_not_digit c : is_lower c = true -> is_digit c = false.
Proof. classes. Qed.

Lemma lower_is_alpha c : is_lower c = true -> is_alpha c = true.
Proof. classes. Qed.

Lemma lower_char_lower c : is_lower c = true -> lower_char c = c.
Proof.
  unfold lower_char. destruct (between 65 90 c) eqn:Hup; [|done].
  intros Hlow. exfalso. revert Hup Hlow. classes.
Qed.

Lemma lower_char_digit c : is_digit c = true -> lower_char c = c.
Proof.
  unfold lower_char. destruct (between 65 90 c) eqn:Hup; [|done].
  intros Hlow. exfalso. revert Hup Hlow. classes.
Qed.

Lemma lower_char_alpha c : is_alpha c = true -> is_lower (lower_char c) = true.
Proof.
  unfold lower_char. destruct (between 65 90 c) eqn:Hup; revert Hup; classes.
Qed.

Lemma space_not_underscore c : is_space c = true -> is_char "_" c = false.
Proof. classes. Qed.

(** The digits 0 to 9 are decimal digits. *)
Lemma digit_is_decimal c : is_digit c = true -> is_decimal c = true.
Proof.
  intros H. unfold is_decimal, decimal_zeros. cbn [existsb].
  change (48 + 9)%N with 57%N. fold (is_digit c). by rewrite H.
Qed.

Lemma forallb_impl (P Q : char -> bool) (s : str) :
  (forall c, P c = true -> Q c = true) -> forallb P s = true -> forallb Q s = true.
Proof.
  intros HPQ. rewrite !forallb_forall. intros H c Hc. by apply HPQ, H.
Qed.

Lemma forallb_lower_filter_alpha s : forallb is_lower (lower (List.filter is_alpha s)) = true.
Proof.
  induction s as [|c s IH]; [done|]. cbn [List.filter].
  destruct (is_alpha c) eqn:Hc; [|done].
  cbn [lower map forallb]. rewrite lower_char_alpha by done. exact IH.
Qed.

Lemma lower_filter_alpha_id s :
  forallb is_lower s = true -> lower (List.filter is_alpha s) = s.
Proof.
  induction s as [|c s IH]; [done|]. cbn [forallb]. intros [Hc Hs]%andb_prop.
  cbn [List.filter]. rewrite lower_is_alpha by done. cbn [lower map].
  rewrite lower_char_lower by done. f_equal. by apply IH.
Qed.

(** ** [str] methods *)

Lemma lstrip_id s : forallb (non is_space) s = true -> lstrip s = s.
Proof.
  destruct s as [|c s]; [done|]. cbn [forallb lstrip]. unfold non at 1.
  intros [Hc _]%andb_prop. by destruct (is_space c).
Qed.

Lemma strip_id s : forallb (non is_space) s = true -> strip s = s.
Proof.
  intros H. unfold strip, rstrip. rewrite (lstrip_id s) by done.
  rewrite lstrip_id; [apply rev_involutive|].
  rewrite forallb_forall in *. intros c Hc. apply H. by apply in_rev.
Qed.

Lemma lstrip_keeps_suffix x y :
  y <> [] -> forallb (non is_space) y = true ->
  exists x', lstrip (x ++ y) = x' ++ y.
Proof.
  intros Hy Hns. induction x as [|c x IH].
  - exists []. by apply lstrip_id.
  - cbn [app lstrip]. destruct (is_space c); [exact IH|]. by exists (c :: x).
Qed.

(** Stripping keeps a leading run of non-space characters. *)
Lemma strip_keeps_prefix d r :
  d <> [] -> forallb (non is_space) d = true ->
  exists r', strip (d ++ r) = d ++ r'.
Proof.
  intros Hd Hns. unfold strip, rstrip.
  assert (lstrip (d ++ r) = d ++ r) as ->.
  { destruct d as [|c d]; [done|]. cbn [app lstrip forallb] in *.
    apply andb_prop in Hns as [Hc _]. unfold non in Hc. by destruct (is_space c). }
  rewrite rev_app_distr.
  destruct (lstrip_keeps_suffix (rev r) (rev d)) as [x' ->].
  - intros Hrev. apply Hd. by rewrite <- (rev_involutive d), Hrev.
  - rewrite forallb_forall in *. intros c Hc. apply Hns. by apply in_rev.
  - exists (rev x'). by rewrite rev_app_distr, rev_involutive.
Qed.

Lemma count_app cls x y : count cls (x ++ y) = count cls x + count cls y.
Proof. unfold count. by rewrite List.filter_app, length_app. Qed.

Lemma count_cons cls c s :
  count cls (c :: s) = (if cls c then 1 else 0) + count cls s.
Proof. unfold count. cbn [List.filter]. by destruct (cls c). Qed.

Lemma count_rev cls s : count cls (rev s) = count cls s.
Proof. unfold count. by rewrite filter_rev, length_rev. Qed.

Lemma count_lstrip cls s : count cls (lstrip s) <= count cls s.
Proof.
  induction s as [|c s IH]; [done|]. cbn [lstrip].
  destruct (is_space c); [|done]. rewrite count_cons. lia.
Qed.

Lemma count_strip cls s : count cls (strip s) <= count cls s.
Proof.
  unfold strip, rstrip. rewrite count_rev.
  etrans; [apply count_lstrip|]. rewrite count_rev. apply count_lstrip.
Qed.

Lemma count_none cls s :
  forallb (non cls) s = true -> count cls s = 0.
Proof.
  induction s as [|c s IH]; [done|]. cbn [forallb]. intros [Hc Hs]%andb_prop.
  rewrite count_cons, IH by done. unfold non in Hc. by destruct (cls c).
Qed.

Lemma startswith_app p s : startswith p (p ++ s) = true.
Proof.
  induction p as [|x p IH]; [done|]. cbn [app startswith].
  by rewrite N.eqb_refl, IH.
Qed.

Lemma cons_eq {A} (x y : A) (l k : list A) : x :: l = y :: k -> x = y /\ l = k.
Proof. by intros [= -> ->]. Qed.

Lemma startswith_inv p s : startswith p s = true -> exists s', s = p ++ s'.
Proof.
  revert s. induction p as [|x p IH]; intros s H; [by exists s|].
  destruct s as [|c s]; [done|]. cbn [startswith] in H.
  apply andb_prop in H as [Hx Hp]. apply N.eqb_eq in Hx as ->.
  destruct (IH s Hp) as [s' ->]. by exists s'.
Qed.

Section Separator.

(** A separator that starts with an underscore. *)
Variable sep' : str.
Let sep : str := ch "_" :: sep'.

Lemma startswith_other c s :
  non (is_char "_") c = true -> startswith sep (c :: s) = false.
Proof.
  unfold non, is_char, sep. cbn [startswith]. by destruct (ch "_" =? c)%N.
Qed.

Lemma contains_skip x s :
  forallb (non (is_char "_")) x = true -> contains sep (x ++ s) = contains sep s.
Proof.
  induction x as [|c x IH]; [done|]. cbn [forallb]. intros [Hc Hx]%andb_prop.
  cbn [app contains]. rewrite startswith_other by done. by apply IH.
Qed.

Lemma contains_none s :
  forallb (non (is_char "_")) s = true -> contains sep s = false.
Proof.
  intros H. rewrite <- (app_nil_r s), contains_skip by done. reflexivity.
Qed.

Lemma split_go_skip cur x s :
  forallb (non (is_char "_")) x = true ->
  split_go sep 0 cur (x ++ s) = split_go sep 0 (rev x ++ cur) s.
Proof.
  revert cur. induction x as [|c x IH]; intros cur; [done|].
  cbn [forallb]. intros [Hc Hx]%andb_prop.
  cbn [app split_go]. rewrite startswith_other by done.
  rewrite IH by done. cbn [rev]. by rewrite <- app_assoc.
Qed.

Lemma split_none s :
  forallb (non (is_char "_")) s = true -> split sep s = [s].
Proof.
  intros H. unfold split. rewrite <- (app_nil_r s) at 1.
  rewrite split_go_skip by done. cbn [split_go].
  by rewrite app_nil_r, rev_involutive.
Qed.

Lemma split_go_head skip cur s :
  exists x xs, split_go sep skip cur s = (rev cur ++ x) :: xs.
Proof.
  revert skip cur. induction s as [|c s IH]; intros skip cur; cbn [split_go].
  - exists [], []. by rewrite app_nil_r.
  - destruct skip as [|k]; [|apply IH].
    destruct (startswith sep (c :: s)).
    + eexists [], _. by rewrite app_nil_r.
    + destruct (IH 0 (c :: cur)) as (x & xs & ->). exists (c :: x), xs.
      cbn [rev]. by rewrite <- app_assoc.
Qed.

(** The first piece of a split keeps a leading run without underscore. *)
Lemma split_keeps_prefix d r :
  forallb (non (is_char "_")) d = true ->
  exists x xs, split sep (d ++ r) = (d ++ x) :: xs.
Proof.
  intros H. unfold split. rewrite split_go_skip by done.
  destruct (split_go_head 0 (rev d ++ []) r) as (x & xs & ->).
  exists x, xs. by rewrite app_nil_r, rev_involutive.
Qed.

Lemma split_go_skipn k cur s :
  split_go sep k cur s = split_go sep 0 cur (drop k s).
Proof.
  revert k. induction s as [|c s IH]; intros k.
  - by destruct k.
  - destruct k as [|k]; [done|]. cbn [split_go drop]. apply IH.
Qed.

(** A string that contains the separator splits into two pieces at least. *)
Lemma contains_split_go cur s :
  contains sep s = true -> 2 <= length (split_go sep 0 cur s).
Proof.
  revert cur. induction s as [|c s IH]; intros cur; [done|].
  cbn [contains split_go]. destruct (startswith sep (c :: s)).
  - intros _. destruct (split_go_head (length sep - 1) [] s) as (x & xs & ->).
    cbn [length]. lia.
  - cbn [orb]. apply IH.
Qed.

End Separator.

(** Every cut at [_1_] uses up two underscores. *)
Lemma split_go_count skip cur s :
  2 * length (split_go (lit "_1_") skip cur s) <=
  2 + count (is_char "_") (drop skip s).
Proof.
  revert skip cur. induction s as [|c s IH]; intros skip cur.
  - destruct skip; cbn; lia.
  - destruct skip as [|k]; [|apply IH].
    cbn [split_go drop]. destruct (startswith (lit "_1_") (c :: s)) eqn:Hsw.
    + apply startswith_inv in Hsw as [s' Hs'].
      cbn [lit list_ascii_of_string map app] in Hs'.
      apply cons_eq in Hs' as [-> ->]. cbn [length].
      specialize (IH 2 []). cbn [split_go drop] in IH.
      rewrite drop_0 in IH. rewrite !count_cons.
      change (is_char "_" (ch "_")) with true.
      change (is_char "_" (ch "1")) with false.
      change (length (lit "_1_") - 1) with 2. cbn [split_go]. lia.
    + specialize (IH 0 (c :: cur)). rewrite drop_0 in IH. rewrite count_cons. lia.
Qed.

Lemma split_two s :
  contains (lit "_1_") s = true -> count (is_char "_") s <= 3 ->
  exists n t, split (lit "_1_") s = [n; t].
Proof.
  intros Hc Hn. unfold split.
  pose proof (contains_split_go (lit "1_") [] s Hc) as H2.
  pose proof (split_go_count 0 [] s) as H3. rewrite drop_0 in H3.
  change (ch "_" :: lit "1_") with (lit "_1_") in H2.
  destruct (split_go (lit "_1_") 0 [] s) as [|n [|t [|u l]]]; cbn [length] in *;
    try lia. by exists n, t.
Qed.

(** ** Substitution of a character class *)

Lemma match_here_class cls prev c s :
  match_here [Rep cls 1 (Some 1)] prev (c :: s) = if cls c then Some 1 else None.
Proof.
  cbn [match_here span cap]. destruct (cls c).
  - by destruct (span cls s).
  - reflexivity.
Qed.

Lemma sub_go_class cls prev s :
  sub_go [Rep (non cls) 1 (Some 1)] [] 0 prev s = List.filter cls s.
Proof.
  revert prev. induction s as [|c s IH]; intros prev; [done|].
  cbn [sub_go]. rewrite match_here_class. unfold non at 1. cbn [List.filter].
  destruct (cls c); cbn [negb app]; by rewrite IH.
Qed.

(** [re.sub("[^0-9]", "", s)] keeps the digits of [s]. *)
Lemma sub_non_digit s : sub re_non_digit [] s = List.filter is_digit s.
Proof. apply sub_go_class. Qed.

(** [re.sub("[^a-zA-Z]", "", s)] keeps the letters of [s]. *)
Lemma sub_non_alpha s : sub re_non_alpha [] s = List.filter is_alpha s.
Proof. apply sub_go_class. Qed.

(** ** Normalization *)

Lemma _norm_eq p :
  _norm p =
  if contains (lit "_1_") (strip p) then
    match split (lit "_1_") (strip p) with
    | [n; s] => Ok (List.filter is_digit n ++ lit "_1_" ++ lower (List.filter is_alpha s))
    | _ => Raise ValueError
    end
  else if contains (lit "_1") (strip p) then
    match split (lit "_1") (strip p) with
    | n :: _ => Ok (List.filter is_digit n ++ lit "_1")
    | [] => Raise IndexError
    end
  else Ok (List.filter is_digit (strip p)).
Proof.
  unfold _norm. cbv zeta.
  destruct (contains (lit "_1_") (strip p)).
  - destruct (split (lit "_1_") (strip p)) as [|n [|s [|? ?]]]; try done.
    by rewrite sub_non_digit, sub_non_alpha.
  - destruct (contains (lit "_1") (strip p)).
    + destruct (split (lit "_1") (strip p)); [done|]. by rewrite sub_non_digit.
    + by rewrite sub_non_digit.
Qed.

Lemma _norm_form p c : _norm p = Ok c -> form c.
Proof.
  rewrite _norm_eq. intros H.
  destruct (contains (lit "_1_") (strip p)).
  - destruct (split (lit "_1_") (strip p)) as [|n [|s [|? ?]]]; try done.
    injection H as <-. constructor; [apply forallb_filter|].
    apply forallb_lower_filter_alpha.
  - destruct (contains (lit "_1") (strip p)).
    + destruct (split (lit "_1") (strip p)); [done|]. injection H as <-.
      constructor. apply forallb_filter.
    + injection H as <-. constructor. apply forallb_filter.
Qed.

Lemma no_space_digits D : forallb is_digit D = true -> forallb (non is_space) D = true.
Proof.
  apply forallb_impl. intros c Hc. unfold non. by rewrite digit_not_space.
Qed.

Lemma no_space_lower L : forallb is_lower L = true -> forallb (non is_space) L = true.
Proof.
  apply forallb_impl. intros c Hc. unfold non. by rewrite lower_not_space.
Qed.

Lemma no_underscore_digits D :
  forallb is_digit D = true -> forallb (non (is_char "_")) D = true.
Proof. apply forallb_impl, digit_not_underscore. Qed.

Lemma no_underscore_lower L :
  forallb is_lower L = true -> forallb (non (is_char "_")) L = true.
Proof. apply forallb_impl, lower_not_underscore. Qed.

Lemma contains_suffix_form D L :
  forallb is_digit D = true ->
  contains (lit "_1_") (D ++ lit "_1_" ++ L) = true.
Proof.
  intros HD. change (lit "_1_") with (ch "_" :: lit "1_") at 1.
  rewrite contains_skip by by apply no_underscore_digits. reflexivity.
Qed.

Lemma split_suffix_form D L :
  forallb is_digit D = true -> forallb is_lower L = true ->
  split (lit "_1_") (D ++ lit "_1_" ++ L) = [D; L].
Proof.
  intros HD HL. unfold split. change (lit "_1_") with (ch "_" :: lit "1_") at 1.
  rewrite split_go_skip by by apply no_underscore_digits.
  rewrite app_nil_r. cbn. rewrite rev_involutive. f_equal.
  apply (split_none (lit "1_")). by apply no_underscore_lower.
Qed.

Lemma contains_digits_1_form D :
  forallb is_digit D = true ->
  contains (lit "_1_") (D ++ lit "_1") = false /\
  contains (lit "_1") (D ++ lit "_1") = true /\
  split (lit "_1") (D ++ lit "_1") = [D; []].
Proof.
  intros HD. pose proof (no_underscore_digits D HD) as HU. split; [|split].
  - change (lit "_1_") with (ch "_" :: lit "1_").
    by rewrite contains_skip.
  - change (lit "_1") with (ch "_" :: lit "1") at 1.
    by rewrite contains_skip.
  - unfold split. change (lit "_1") with (ch "_" :: lit "1") at 1.
    rewrite split_go_skip by done. rewrite app_nil_r. cbn.
    by rewrite rev_involutive.
Qed.

Lemma contains_bare_form D :
  forallb is_digit D = true ->
  contains (lit "_1_") D = false /\ contains (lit "_1") D = false.
Proof.
  intros HD. pose proof (no_underscore_digits D HD) as HU.
  split; [apply (contains_none (lit "1_"))|apply (contains_none (lit "1"))]; done.
Qed.

Lemma form_no_space c : form c -> forallb (non is_space) c = true.
Proof.
  intros [D L HD HL|D HD|D HD]; rewrite ?forallb_app.
  - rewrite (no_space_digits D), (no_space_lower L) by done. reflexivity.
  - rewrite (no_space_digits D) by done. reflexivity.
  - by apply no_space_digits.
Qed.

(** A string of one of the forms is its own normalization. *)
Lemma _norm_fixed c : form c -> _norm c = Ok c.
Proof.
  intros Hc. rewrite _norm_eq, strip_id by by apply form_no_space.
  destruct Hc as [D L HD HL|D HD|D HD].
  - rewrite contains_suffix_form, split_suffix_form by done.
    by rewrite forallb_filter_id, lower_filter_alpha_id.
  - destruct (contains_digits_1_form D HD) as (-> & -> & ->).
    by rewrite forallb_filter_id.
  - destruct (contains_bare_form D HD) as (-> & ->).
    by rewrite forallb_filter_id.
Qed.

(** C6: normalization is idempotent: a string that [_norm] returns is
    returned unchanged when normalized again. *)
Theorem normalization_idempotent :
  (forall x p : str, _norm x = Ok p -> _norm p = Ok p) /\
  (forall x : str, bind (_norm x) _norm = _norm x).
Proof.
  assert (forall x p : str, _norm x = Ok p -> _norm p = Ok p) as H.
  { intros x p Hx. by eapply _norm_fixed, _norm_form. }
  split; [exact H|]. intros x. destruct (_norm x) as [p|e] eqn:Hx; [|done].
  cbn [bind]. by apply (H x).
Qed.

Lemma normalization_idempotent_witness :
  _norm waybill = Ok waybill.
Proof.
  apply (proj1 normalization_idempotent
           (lit "reverseWaybill 156387426414724544 _1_ lW-V ")).
  by vm_compute.
Defined.

Example _norm_raises : _norm (lit "1_1_1_1_a") = Raise ValueError.
Proof. by vm_compute. Qed.

(** ** Scores *)

Lemma _score_forms :
  (forall D L,
     forallb is_digit D = true -> forallb is_lower L = true ->
     _score (D ++ lit "_1_" ++ L) = Ok (spec_score_suffix D L)) /\
  (forall D,
     forallb is_digit D = true ->
     _score (D ++ lit "_1") =
     Ok (if 15 <=? length D then 60%Z
         else if 13 <=? length D then 20%Z else 0%Z)) /\
  (forall D,
     forallb is_digit D = true -> _score D = Ok (spec_score_bare D)).
Proof.
  split; [|split].
  - intros D L HD HL. unfold _score, spec_score_suffix.
    rewrite contains_suffix_form, split_suffix_form by done.
    f_equal. destruct (length D =? 18), (16 <=? length D), (length L =? 3); lia.
  - intros D HD. unfold _score.
    destruct (contains_digits_1_form D HD) as (-> & -> & ->).
    destruct (Nat.leb_spec 15 (length D)); [done|].
    rewrite length_app. cbn [lit list_ascii_of_string length map]. f_equal.
    destruct (Nat.leb_spec 15 (length D + 2)), (Nat.leb_spec 13 (length D)); (done || lia).
  - intros D HD. unfold _score.
    by destruct (contains_bare_form D HD) as (-> & ->).
Qed.

(** C2, as the code has it: the scorer gives a candidate of the form
    digits, [_1_], letters 20, plus 100 for a run of 18 digits or else 80
    for a run of at least 16, plus 50 for a suffix of 3 letters; a
    candidate of the form digits, [_1] gets 60 for a run of at least 15
    digits, else 20 when the whole candidate has at least 15 characters
    (a run of 13 or 14 digits), else 0; a bare run of digits gets 20 when
    it has at least 15 digits, else 0. *)
Theorem score_by_form :
  (forall D L,
     forallb is_digit D = true -> forallb is_lower L = true ->
     _score (D ++ lit "_1_" ++ L) = Ok (spec_score_suffix D L)) /\
  (forall D,
     forallb is_digit D = true ->
     _score (D ++ lit "_1") =
     Ok (if 15 <=? length D then 60%Z
         else if 15 <=? length (D ++ lit "_1") then 20%Z else 0%Z) /\
     (15 <= length D \/ length D < 13 ->
      _score (D ++ lit "_1") = Ok (spec_score_digits_1 D))) /\
  (forall D,
     forallb is_digit D = true -> _score D = Ok (spec_score_bare D)).
Proof.
  destruct _score_forms as (H1 & H2 & H3).
  split; [exact H1|]. split; [|exact H3].
  intros D HD. rewrite (H2 D HD), length_app. cbn [lit list_ascii_of_string length map].
  unfold spec_score_digits_1. split.
  - destruct (Nat.leb_spec 15 (length D)); [done|].
    destruct (Nat.leb_spec 13 (length D)), (Nat.leb_spec 15 (length D + 2)); (done || lia).
  - intros Hlen. destruct (Nat.leb_spec 15 (length D)); [done|].
    destruct (Nat.leb_spec 13 (length D)); (done || lia).
Qed.

Lemma score_by_form_witness :
  _score (lit "123456789012345678_1_abc") = Ok 170%Z /\
  _score (lit "1234567890123456_1") = Ok 60%Z /\
  _score (lit "1234567890123456") = Ok 20%Z.
Proof.
  destruct score_by_form as (H1 & H2 & H3). split; [|split].
  - apply (H1 (lit "123456789012345678") (lit "abc")); reflexivity.
  - refine (proj2 (H2 (lit "1234567890123456") _) _); [reflexivity|].
    left. cbn. lia.
  - apply (H3 (lit "1234567890123456")). reflexivity.
Defined.

(** A candidate of 13 digits and [_1] is a normalized string of the second
    form; the specification scores it 0, the scorer 20. *)
Lemma score_digits_1_short :
  _norm (lit "1234567890123_1") = Ok (lit "1234567890123" ++ lit "_1") /\
  forallb is_digit (lit "1234567890123") = true /\
  _score (lit "1234567890123" ++ lit "_1") = Ok 20%Z /\
  spec_score_digits_1 (lit "1234567890123") = 0%Z /\
  _score (lit "1234567890123" ++ lit "_1") <>
  Ok (spec_score_digits_1 (lit "1234567890123")).
Proof. repeat split; by vm_compute. Qed.

(** ** Matches *)

Lemma backtrack_Some {A} (try : nat -> option A) lo k r :
  backtrack try lo k = Some r -> exists j, lo <= j <= k /\ try j = Some r.
Proof.
  induction k as [|k IH]; cbn [backtrack].
  - destruct (Nat.ltb_spec 0 lo); [done|]. destruct (try 0) eqn:H0; [|done].
    intros [= <-]. exists 0. split; [lia|done].
  - destruct (Nat.ltb_spec (S k) lo); [done|]. destruct (try (S k)) eqn:HS.
    + intros [= <-]. exists (S k). split; [lia|done].
    + intros (j & Hj & Hr)%IH. exists j. split; [lia|done].
Qed.

Lemma span_le cls s : span cls s <= length s.
Proof.
  induction s as [|c s IH]; [done|]. cbn [span length]. destruct (cls c); lia.
Qed.

Lemma cap_le hi n : cap hi n <= n.
Proof. destruct hi; cbn [cap]; lia. Qed.

Lemma cap_hi hi n h : hi = Some h -> cap hi n <= h.
Proof. intros ->. cbn [cap]. lia. Qed.

Lemma span_take_all cls s k :
  k <= span cls s -> forallb cls (take k s) = true.
Proof.
  revert k. induction s as [|c s IH]; intros k Hk; [by destruct k|].
  destruct k as [|k]; [done|]. cbn [span] in Hk. cbn [take forallb].
  destruct (cls c); [|lia]. apply IH. lia.
Qed.

Lemma span_all cls s x :
  forallb cls s = true -> length s <= span cls (s ++ x).
Proof.
  induction s as [|c s IH]; cbn [forallb app span length]; [lia|].
  intros [-> Hs]%andb_prop. specialize (IH Hs). lia.
Qed.

(** The pieces of a match of [p] at the head of [s]. *)
Lemma match_here_Rep cls lo hi p prev s len :
  match_here (Rep cls lo hi :: p) prev s = Some len ->
  exists j len',
    lo <= j <= cap hi (span cls s) /\
    match_here p (prev_after prev s j) (drop j s) = Some len' /\
    len = j + len'.
Proof.
  cbn [match_here]. intros (j & Hj & Hr)%backtrack_Some.
  destruct (match_here p (prev_after prev s j) (drop j s)) as [len'|] eqn:Hm; [|done].
  injection Hr as <-. by exists j, len'.
Qed.

Lemma match_here_le p : forall prev s len,
  match_here p prev s = Some len -> len <= length s.
Proof.
  induction p as [|[cls lo hi|cls|cls] p IH]; intros prev s len.
  - intros [= <-]. lia.
  - intros (j & len' & Hj & Hm & ->)%match_here_Rep.
    apply IH in Hm. rewrite length_drop in Hm.
    pose proof (cap_le hi (span cls s)). pose proof (span_le cls s). lia.
  - cbn [match_here]. destruct prev as [c|]; [|done].
    destruct (cls c); [apply IH|done].
  - cbn [match_here]. destruct s as [|c s]; [done|].
    destruct (cls c); [apply IH|done].
Qed.

(** A match has no more occurrences of a character than the pattern allows. *)
Lemma match_here_budget x p : forall prev s len n,
  match_here p prev s = Some len -> budget x p = Some n ->
  count (is_char x) (take len s) <= n.
Proof.
  induction p as [|[c lo hi|c|c] p IH]; intros prev s len n.
  - intros [= <-] [= <-]. by rewrite take_0.
  - intros (j & len' & Hj & Hm & ->)%match_here_Rep. cbn [budget].
    destruct (budget x p) as [n'|] eqn:Hb.
    2:{ by destruct (if c (ch x) then _ else _). }
    specialize (IH _ _ _ _ Hm eq_refl).
    rewrite <- take_take_drop, count_app.
    pose proof (span_take_all c s j) as Hall.
    pose proof (cap_le hi (span c s)) as Hcap.
    specialize (Hall ltac:(lia)).
    destruct (c (ch x)) eqn:Hex.
    + destruct hi as [h|]; [|done]. intros [= <-].
      assert (count (is_char x) (take j s) <= j).
      { unfold count. etrans; [apply filter_length_le|]. rewrite length_take. lia. }
      cbn [cap] in Hj. lia.
    + intros [= <-]. rewrite count_none; [lia|].
      rewrite forallb_forall in *. intros y Hy. unfold non, is_char.
      destruct (N.eqb_spec (ch x) y) as [<-|]; [|done].
      specialize (Hall _ Hy). congruence.
  - cbn [match_here budget]. destruct prev as [y|]; [|done].
    destruct (c y); [apply IH|done].
  - cbn [match_here budget]. destruct s as [|y s]; [done|].
    destruct (c y); [apply IH|done].
Qed.

(** What [finditer] yields are matches. *)
Lemma finditer_go_sound p m : forall s skip prev,
  m ∈ finditer_go p skip prev s ->
  exists prev' s' len, match_here p prev' s' = Some len /\ m = take len s'.
Proof.
  induction s as [|c s IH]; intros skip prev Hm; cbn [finditer_go] in Hm.
  - by apply elem_of_nil in Hm.
  - destruct skip as [|k]; [|by eapply IH].
    destruct (match_here p prev (c :: s)) as [[|len]|] eqn:Hmatch;
      [by eapply IH| |by eapply IH].
    apply elem_of_cons in Hm as [->|Hm]; [|by eapply IH].
    by exists prev, (c :: s), (S len).
Qed.

(** A match is made of characters of the text. *)
Lemma finditer_go_chars (P : char -> Prop) p m : forall s skip prev,
  Forall P s -> m ∈ finditer_go p skip prev s -> Forall P m.
Proof.
  induction s as [|c s IH]; intros skip prev Hs Hm; cbn [finditer_go] in Hm.
  - by apply elem_of_nil in Hm.
  - pose proof (Forall_inv_tail Hs) as Hs'.
    destruct skip as [|k]; [|by eapply IH].
    destruct (match_here p prev (c :: s)) as [[|len]|] eqn:Hmatch;
      [by eapply IH| |by eapply IH].
    apply elem_of_cons in Hm as [->|Hm]; [|by eapply IH].
    by apply Forall_take.
Qed.

Lemma span_take cls s n : n <= span cls s -> span cls (take n s) = n.
Proof.
  revert n. induction s as [|c s IH]; intros n Hn.
  - cbn [span] in Hn. by replace n with 0 by lia.
  - destruct n as [|n]; [done|]. cbn [span] in Hn. cbn [take span].
    destruct (cls c); [|lia]. rewrite IH; lia.
Qed.

(** The five patterns start with at least 15 decimal digits and hold two
    underscores at most. *)
Lemma patterns_shape pat :
  pat ∈ patterns ->
  (exists lo hi p, pat = Rep is_decimal lo hi :: p /\ 15 <= lo) /\
  (exists n, budget "_" pat = Some n /\ n <= 2).
Proof.
  unfold patterns. intros H.
  repeat (apply elem_of_cons in H as [->|H];
          [split; [by eexists _, _, _; split; [reflexivity|lia]
                  |eexists; split; [by vm_compute|lia]]|]).
  by apply elem_of_nil in H.
Qed.

Lemma match_digits lo hi p prev s len :
  match_here (Rep is_decimal lo hi :: p) prev s = Some len ->
  lo <= span is_decimal s /\ lo <= span is_decimal (take len s).
Proof.
  intros H. pose proof (match_here_le _ _ _ _ H) as Hlen.
  apply match_here_Rep in H as (j & len' & Hj & Hm & ->).
  pose proof (cap_le hi (span is_decimal s)). split; [lia|].
  rewrite <- take_take_drop.
  etrans; [|apply span_all; apply span_take_all; lia].
  rewrite length_take. pose proof (span_le is_decimal s). lia.
Qed.

Lemma finditer_patterns pat text m :
  pat ∈ patterns -> m ∈ finditer pat text ->
  15 <= span is_decimal m /\ count (is_char "_") m <= 2.
Proof.
  intros [(lo & hi & p & -> & Hlo) (n & Hn & Hn2)]%patterns_shape Hm.
  apply finditer_go_sound in Hm as (prev & s & len & Hmatch & ->). split.
  - apply match_digits in Hmatch. lia.
  - etrans; [by eapply match_here_budget|done].
Qed.

(** ** Candidates *)

Lemma filter_digit_prefix D x :
  D <> [] -> forallb is_digit D = true ->
  List.filter is_digit (D ++ x) <> [] /\
  forallb is_digit (List.filter is_digit (D ++ x)) = true.
Proof.
  intros HD Hall. split; [|apply forallb_filter].
  rewrite List.filter_app, forallb_filter_id by done. by destruct D.
Qed.

(** The normalization of a string that holds three underscores at most
    succeeds, and its result has one of the forms. *)
Lemma _norm_match m :
  count (is_char "_") m <= 3 -> exists c, _norm m = Ok c /\ form c.
Proof.
  intros Hcount.
  pose proof (count_strip (is_char "_") m) as Hcs.
  assert (exists c, _norm m = Ok c) as [c Hc].
  { rewrite _norm_eq.
    destruct (contains (lit "_1_") (strip m)) eqn:Hc3.
    - destruct (split_two _ Hc3) as (n & t & ->); [lia|]. by eexists.
    - destruct (contains (lit "_1") (strip m)); [|by eexists].
      destruct (split_go_head (lit "1") 0 [] (strip m)) as (x & xs & Hhead).
      change (ch "_" :: lit "1") with (lit "_1") in Hhead.
      unfold split. rewrite Hhead. by eexists. }
  exists c. split; [done|]. by eapply _norm_form.
Qed.

Lemma form_canonical c : form c -> c <> [] -> canonical 0 0 c.
Proof.
  intros [D L HD HL|D HD|D HD] Hne.
  - left. exists D, L. repeat split; (done || lia).
  - right. left. exists D. repeat split; (done || lia).
  - right. right. repeat split; (done || lia).
Qed.

Lemma canonical_form i j c : canonical i j c -> form c.
Proof.
  intros [(D & L & -> & _ & HD & HL & _)|[(D & -> & _ & HD)|(_ & _ & HD)]];
    by constructor.
Qed.

(** The inner loop of [_extract_from_text] over matches that normalize:
    what it appends is not empty. *)
Lemma extract_matches (Q : str -> Prop) ms :
  forall found,
    (forall m, m ∈ ms -> exists c, _norm m = Ok c /\ (c <> [] -> Q c)) ->
    Forall Q found ->
    exists found',
      for_each
        (fun found m =>
           bind (_norm m) (fun norm =>
           match norm with
           | [] => Ok found
           | _ => Ok (found ++ [norm])
           end))
        ms found = Ok found' /\ Forall Q found'.
Proof.
  induction ms as [|m ms IH]; intros found Hms Hfound; cbn [for_each].
  - by exists found.
  - destruct (Hms m) as (c & -> & Hc); [by left|]. cbn [bind].
    destruct c as [|c0 c].
    + apply IH; [|done]. intros m' Hm'. apply Hms. by right.
    + apply IH; [intros m' Hm'; apply Hms; by right|].
      apply Forall_app. split; [done|]. constructor; [by apply Hc|done].
Qed.

Lemma extract_patterns (Q : str -> Prop) text pats :
  forall found,
    (forall pat m, pat ∈ pats -> m ∈ finditer pat text ->
                   exists c, _norm m = Ok c /\ (c <> [] -> Q c)) ->
    Forall Q found ->
    exists found',
      for_each
        (fun found pat =>
           for_each
             (fun found m =>
                bind (_norm m) (fun norm =>
                match norm with
                | [] => Ok found
                | _ => Ok (found ++ [norm])
                end))
             (finditer pat text) found)
        pats found = Ok found' /\ Forall Q found'.
Proof.
  induction pats as [|pat pats IH]; intros found Hpats Hfound; cbn [for_each].
  - by exists found.
  - destruct (extract_matches Q (finditer pat text) found) as (found1 & -> & H1);
      [|done|].
    { intros m Hm. apply (Hpats pat); [by left|done]. }
    cbn [bind]. apply IH; [|done].
    intros pat' m Hpat' Hm. apply (Hpats pat'); [by right|done].
Qed.

(** Extraction never raises, and what it returns has one of the forms and
    is not empty. *)
Lemma _extract_from_text_form text :
  exists found,
    _extract_from_text text = Ok found /\
    Forall (fun c => form c /\ c <> []) found.
Proof.
  unfold _extract_from_text. cbv zeta. apply extract_patterns; [|done].
  intros pat m Hpat Hm.
  destruct (finditer_patterns pat _ m Hpat Hm) as [_ H2].
  destruct (_norm_match m) as (c & Hc & Hform); [lia|]. by exists c.
Qed.

(** C3, as the code has it: whatever the text, extraction returns, and
    each candidate is a run of digits 0 to 9, [_1_] and lower-case letters,
    or a run of digits and [_1], or a run of digits alone, in which the
    run may be empty when the separator follows it and the letters may be
    none; no candidate is the empty string. *)
Theorem candidates_are_canonical (text : str) :
  exists found,
    _extract_from_text text = Ok found /\
    Forall (fun c => canonical 0 0 c /\ c <> []) found.
Proof.
  destruct (_extract_from_text_form text) as (found & Hf & Hall).
  exists found. split; [done|].
  eapply Forall_impl; [exact Hall|]. intros c [Hc Hne]. split; [|done].
  by apply form_canonical.
Qed.

(** A string that ends with an underscore has a suffix of one letter at
    least in none of the forms. *)
Lemma trailing_underscore_no_suffix i s :
  ~ canonical i 1 (s ++ lit "_").
Proof.
  change (lit "_") with [ch "_"].
  intros [(D & L & Heq & _ & _ & HL & Hlen)|[(D & Heq & _)|(_ & _ & Hd)]].
  - destruct L as [|x L _] using rev_ind; [cbn in Hlen; lia|].
    rewrite forallb_app in HL. apply andb_prop in HL as [_ Hx].
    rewrite !app_assoc in Heq. apply app_inj_tail in Heq as [_ <-]. done.
  - change (lit "_1") with ([ch "_"] ++ [ch "1"]) in Heq.
    rewrite !app_assoc in Heq. by apply app_inj_tail in Heq as [_ Heq].
  - rewrite forallb_app in Hd. by apply andb_prop in Hd as [_ Hd].
Qed.

(** A string that starts with an underscore has a digit in none of the
    forms. *)
Lemma leading_underscore_no_digit j s :
  ~ canonical 1 j (lit "_" ++ s).
Proof.
  change (lit "_") with [ch "_"].
  intros [(D & L & Heq & Hlen & HD & _)|[(D & Heq & Hlen & HD)|(_ & _ & Hd)]].
  - destruct D as [|d D]; [cbn in Hlen; lia|].
    apply cons_eq in Heq as [<- _]. by apply andb_prop in HD as [HD _].
  - destruct D as [|d D]; [cbn in Hlen; lia|].
    apply cons_eq in Heq as [<- _]. by apply andb_prop in HD as [HD _].
  - by apply andb_prop in Hd as [Hd _].
Qed.

(** A match of the third pattern without letters gives a candidate that
    ends with the separator, and a match of the first pattern whose digits
    are not those of ASCII gives candidates that start with it: neither
    has one of the forms with a digit and a letter at least. *)
Lemma candidate_without_letters :
  (_extract_from_text (lit "123456789012345_1_") =
   Ok [lit "123456789012345_1_"; lit "123456789012345_1"; lit "123456789012345"] /\
   ~ canonical 0 1 (lit "123456789012345_1_") /\
   ~ canonical 1 1 (lit "123456789012345_1_")) /\
  (_extract_from_text (arabic_indic_18 ++ lit "_1_abc") =
   Ok [lit "_1_abc"; lit "_1_abc"; lit "_1_abc"; lit "_1"] /\
   ~ canonical 1 0 (lit "_1_abc") /\ ~ canonical 1 1 (lit "_1_abc") /\
   ~ canonical 1 0 (lit "_1") /\ ~ canonical 1 1 (lit "_1")).
Proof.
  split; (split; [by vm_compute|]).
  - split; apply (trailing_underscore_no_suffix _ (lit "123456789012345_1")).
  - repeat split.
    + apply (leading_underscore_no_digit _ (lit "1_abc")).
    + apply (leading_underscore_no_digit _ (lit "1_abc")).
    + apply (leading_underscore_no_digit _ (lit "1")).
    + apply (leading_underscore_no_digit _ (lit "1")).
Qed.

(** ** Texts without a long digit run *)

Lemma has_digit_run_cons n c s :
  has_digit_run n (c :: s) = false ->
  span is_decimal (c :: s) < n /\ has_digit_run n s = false.
Proof.
  cbn [has_digit_run]. intros [H1 H2]%orb_false_elim.
  split; [by apply Nat.leb_gt|done].
Qed.

Lemma finditer_go_no_run lo hi p s : forall skip prev,
  15 <= lo -> has_digit_run 15 s = false ->
  finditer_go (Rep is_decimal lo hi :: p) skip prev s = [].
Proof.
  induction s as [|c s IH]; intros skip prev Hlo Hrun; [done|].
  apply has_digit_run_cons in Hrun as [Hspan Hrun]. cbn [finditer_go].
  destruct skip as [|k]; [|by apply IH].
  destruct (match_here _ prev (c :: s)) as [[|len]|] eqn:Hm; [by apply IH| |by apply IH].
  apply match_digits in Hm. lia.
Qed.

Lemma extract_no_matches text pats :
  forall found,
    (forall pat, pat ∈ pats -> finditer pat text = []) ->
    for_each
      (fun found pat =>
         for_each
           (fun found m =>
              bind (_norm m) (fun norm =>
              match norm with
              | [] => Ok found
              | _ => Ok (found ++ [norm])
              end))
           (finditer pat text) found)
      pats found = Ok found.
Proof.
  induction pats as [|pat pats IH]; intros found H; [done|].
  cbn [for_each]. rewrite (H pat) by left. cbn [for_each bind].
  apply IH. intros pat' Hpat'. apply H. by right.
Qed.

Lemma _extract_from_text_no_run t :
  has_digit_run 15 (_clean_text t) = false -> _extract_from_text t = Ok [].
Proof.
  intros Hrun. unfold _extract_from_text. cbv zeta.
  apply extract_no_matches. intros pat Hpat.
  apply patterns_shape in Hpat as [(lo & hi & p & -> & Hlo) _].
  by apply finditer_go_no_run.
Qed.

(** C4, as the code has it: when no text of the pool, once cleaned by
    [_clean_text] (which among others removes the white space between two
    digits), holds a run of 15 or more decimal digits, those that [\d]
    matches, the extractor returns None. *)
Theorem no_digit_run_gives_none self (texts : list str) image_name :
  (forall t, t ∈ texts -> has_digit_run 15 (_clean_text t) = false) ->
  extract_best_from_texts self texts image_name = Ok None.
Proof.
  intros H. unfold extract_best_from_texts.
  rewrite for_each_extract_nil; [done|].
  intros t Ht. by apply _extract_from_text_no_run, H.
Qed.

Lemma no_digit_run_gives_none_witness :
  extract_best_from_texts
    {| gt_map := {[ lit "a.jpg" := waybill ]}; refiner := {| max_snap := 3 |} |}
    [lit "reverseWaybill 15638742641472 _1_ lWV"; lit "+31 6 1234 5678"]
    (Some (lit "a.jpg")) = Ok None.
Proof.
  apply no_digit_run_gives_none.
  intros t Ht. repeat (apply elem_of_cons in Ht as [->|Ht]; [by vm_compute|]).
  by apply elem_of_nil in Ht.
Defined.

(** A text whose digits are in two runs shorter than 15 that white space
    separates: cleaning joins them and the run is a candidate. *)
Lemma digit_run_after_cleaning :
  (forall t, t ∈ [lit "12345678 90123456"] -> has_digit_run 15 t = false) /\
  _clean_text (lit "12345678 90123456") = lit "1234567890123456" /\
  extract_best_from_texts (TextExtractor.init None None)
    [lit "12345678 90123456"] None = Ok (Some (lit "1234567890123456")) /\
  extract_best_from_texts (TextExtractor.init None None)
    [lit "12345678 90123456"] None <> Ok None.
Proof.
  split; [|by vm_compute].
  intros t Ht. apply list_elem_of_singleton in Ht as ->. by vm_compute.
Qed.

(** * Further properties of the code *)

(** ** The edit distance *)

Lemma lev_sym a b : forall i j, lev a b i j = lev b a j i.
Proof.
  induction i as [|i IHi]; intros j; [by rewrite lev_0_l, lev_0_r|].
  induction j as [|j IHj]; [by rewrite lev_0_l, lev_0_r|].
  rewrite !lev_S, IHj, !IHi.
  destruct (decide (a !! i = b !! j)), (decide (b !! j = a !! i)); (congruence || lia).
Qed.

Lemma lev_bounds a b : forall i j,
  i - j <= lev a b i j /\ j - i <= lev a b i j /\ lev a b i j <= Nat.max i j.
Proof.
  induction i as [|i IHi]; intros j; [rewrite lev_0_l; lia|].
  induction j as [|j IHj]; [rewrite lev_0_r; lia|].
  rewrite lev_S. pose proof (IHi (S j)). pose proof (IHi j).
  destruct (decide (a !! i = b !! j)); lia.
Qed.

Lemma lev_zero a b : forall i j,
  i <= length a -> j <= length b ->
  lev a b i j = 0 -> i = j /\ take i a = take j b.
Proof.
  induction i as [|i IHi]; intros j Hi Hj.
  { rewrite lev_0_l. intros ->. by rewrite !take_0. }
  destruct j as [|j]; [by rewrite lev_0_r|].
  rewrite lev_S. intros H.
  destruct (decide (a !! i = b !! j)) as [Heq|Hne]; [|lia].
  destruct (IHi j) as [-> Htake]; [lia..|].
  split; [done|].
  destruct (lookup_lt_is_Some_2 a j) as [x Hx]; [lia|].
  rewrite (take_S_r a j x), (take_S_r b j x) by congruence. by rewrite Htake.
Qed.

(** X1: the table that [_levenshtein] fills holds the edit distance of
    the prefixes, so the function returns the edit distance of its
    arguments, as the recurrence of insertions, deletions and substitutions
    defines it. *)
Theorem levenshtein_table_is_edit_distance (a b : str) :
  _levenshtein a b = lev a b (length a) (length b) /\
  _levenshtein [] b = length b /\
  _levenshtein a [] = length a.
Proof.
  rewrite !_levenshtein_correct. unfold levenshtein. split; [done|].
  split; [apply lev_0_l|apply lev_0_r].
Qed.

(** X2: the edit distance does not depend on the order of its arguments. *)
Theorem levenshtein_symmetric (a b : str) :
  _levenshtein a b = _levenshtein b a.
Proof. rewrite !_levenshtein_correct. apply lev_sym. Qed.

(** X3: the edit distance of two strings is at least the difference of
    their lengths and at most the greater length. *)
Theorem levenshtein_bounds (a b : str) :
  length a - length b <= _levenshtein a b /\
  length b - length a <= _levenshtein a b /\
  _levenshtein a b <= Nat.max (length a) (length b).
Proof. rewrite _levenshtein_correct. apply lev_bounds. Qed.

(** X4: the edit distance is 0 exactly for equal strings. *)
Theorem levenshtein_zero_iff_equal (a b : str) :
  _levenshtein a b = 0 <-> a = b.
Proof.
  rewrite _levenshtein_correct. unfold levenshtein. split.
  - intros H. apply lev_zero in H as [Hlen Htake]; [|done..].
    by rewrite !firstn_all in Htake.
  - intros ->. apply lev_diag.
Qed.

(** ** What the selector can return *)

Lemma first_max_elem key l b : first_max key l b -> b ∈ l.
Proof.
  intros (l1 & l2 & -> & _). rewrite elem_of_app, elem_of_cons. auto.
Qed.

Lemma elem_of_unique_of raw x : x ∈ unique_of raw <-> x ∈ raw.
Proof. rewrite unique_of_first_seen. apply elem_of_first_seen. Qed.

Lemma choose_best_outcome self raw_candidates score_map ground_truth :
  exists r,
    choose_best self raw_candidates score_map ground_truth = Ok r /\
    (r = None <-> raw_candidates = []) /\
    forall x, r = Some x ->
      x ∈ raw_candidates \/
      (ground_truth = Some x /\ x <> [] /\
       exists c, c ∈ raw_candidates /\
                 (Z.of_nat (_levenshtein c x) <= max_snap self)%Z).
Proof.
  destruct raw_candidates as [|r0 raw].
  { exists None. split; [done|]. split; [done|]. discriminate. }
  assert (r0 :: raw <> []) as Hne by done.
  assert (exists b, fallback (unique_of (r0 :: raw)) score_map = Ok (Some b) /\
                    b ∈ r0 :: raw) as (b & Hb & Hin).
  { destruct (fallback_first_max (unique_of (r0 :: raw)) score_map) as (b & Hb & Hmax).
    - destruct (unique_of_cons r0 raw) as [l' ->]. done.
    - exists b. split; [done|]. apply first_max_elem in Hmax.
      exact (proj1 (elem_of_unique_of _ _) Hmax). }
  destruct (truthy ground_truth) eqn:Htruthy.
  - destruct ground_truth as [[|g0 g']|]; try done.
    destruct (choose_best_reference self (r0 :: raw) score_map (g0 :: g'))
      as (c & d & Hc & Hd & _ & ->); [done..|].
    destruct (Z.leb_spec (Z.of_nat d) (max_snap self)) as [Hle|Hgt].
    + eexists. split; [reflexivity|]. split; [done|].
      intros x [= <-]. right. split; [done|]. split; [done|].
      exists c. split; [by apply elem_of_unique_of|].
      by rewrite _levenshtein_correct, Hd.
    + rewrite choose_best_no_reference, Hb by done.
      eexists. split; [reflexivity|]. split; [done|].
      intros x [= <-]. by left.
  - rewrite choose_best_no_reference, Hb by done.
    eexists. split; [reflexivity|]. split; [done|].
    intros x [= <-]. by left.
Qed.

(** X5: the selector never raises.  It returns None only for an empty
    candidate list; otherwise it returns either one of the candidates or
    the reference, and the reference only if it is not empty and some
    candidate is within the snap distance of it. *)
Theorem choose_best_returns self raw_candidates score_map ground_truth :
  exists r,
    choose_best self raw_candidates score_map ground_truth = Ok r /\
    (r = None <-> raw_candidates = []) /\
    forall x, r = Some x ->
      x ∈ raw_candidates \/
      (ground_truth = Some x /\ x <> [] /\
       exists c, c ∈ raw_candidates /\
                 (Z.of_nat (_levenshtein c x) <= max_snap self)%Z).
Proof. apply choose_best_outcome. Qed.

(** ** The range of the scores *)

(** X6: a score is one of 0, 20, 60, 70, 100, 120, 150 and 170; the
    scorer raises nothing but ValueError, and only on a string with four
    underscores or more. *)
Theorem score_range (p : str) :
  match _score p with
  | Ok sc => sc ∈ [0; 20; 60; 70; 100; 120; 150; 170]%Z
  | Raise e => e = ValueError /\ 4 <= count (is_char "_") p
  end.
Proof.
  unfold _score.
  destruct (contains (lit "_1_") p) eqn:Hc3.
  - destruct (Nat.le_gt_cases (count (is_char "_") p) 3) as [Hle|Hgt].
    + destruct (split_two p Hc3 Hle) as (n & t & ->).
      destruct (length n =? 18), (16 <=? length n), (length t =? 3); cbn;
        set_solver.
    + destruct (split (lit "_1_") p) as [|n [|t [|u l]]];
        [done|done| |done].
      destruct (length n =? 18), (16 <=? length n), (length t =? 3); cbn;
        set_solver.
  - destruct (contains (lit "_1") p) eqn:Hc2.
    + pose proof (contains_split_go (lit "1") [] p Hc2) as Hlen.
      change (ch "_" :: lit "1") with (lit "_1") in Hlen. fold (split (lit "_1") p) in Hlen.
      destruct (split (lit "_1") p) as [|n l]; [cbn in Hlen; lia|].
      destruct (15 <=? length n), (15 <=? length p); set_solver.
    + destruct (15 <=? length p); set_solver.
Qed.

(** ** When normalization succeeds *)

(** X7: normalization raises nothing but ValueError, and only on a string
    with four underscores or more; otherwise it returns a digit run, a
    digit run and [_1], or a digit run, [_1_] and lower-case letters. *)
Theorem normalization_succeeds (p : str) :
  match _norm p with
  | Ok c => form c
  | Raise e => e = ValueError /\ 4 <= count (is_char "_") p
  end.
Proof.
  destruct (_norm p) as [c|e] eqn:Hnorm; [by eapply _norm_form|].
  rewrite _norm_eq in Hnorm.
  pose proof (count_strip (is_char "_") p) as Hstrip.
  destruct (contains (lit "_1_") (strip p)) eqn:Hc3.
  - destruct (Nat.le_gt_cases (count (is_char "_") (strip p)) 3) as [Hle|Hgt].
    + destruct (split_two _ Hc3 Hle) as (n & t & Hs). by rewrite Hs in Hnorm.
    + destruct (split (lit "_1_") (strip p)) as [|n [|t [|u l]]];
        try done; injection Hnorm as <-; split; (done || lia).
  - destruct (contains (lit "_1") (strip p)) eqn:Hc2; [|done].
    pose proof (contains_split_go (lit "1") [] _ Hc2) as Hlen.
    change (ch "_" :: lit "1") with (lit "_1") in Hlen.
    fold (split (lit "_1") (strip p)) in Hlen.
    destruct (split (lit "_1") (strip p)) as [|n l]; [cbn in Hlen; lia|done].
Qed.

(** ** The unique candidates *)

Lemma first_seen_NoDup l : NoDup l -> first_seen l = l.
Proof.
  induction l as [|c l IH]; [done|]. intros [Hc Hl]%NoDup_cons.
  cbn [first_seen]. rewrite IH by done. f_equal.
  apply filter_id. intros x Hx ->. done.
Qed.

(** X8: the list of unique candidates has no duplicates, holds exactly the
    candidates received, starts with the first of them, and is left
    unchanged by a second deduplication. *)
Theorem unique_candidates (raw_candidates : list str) :
  NoDup (unique_of raw_candidates) /\
  (forall c, c ∈ unique_of raw_candidates <-> c ∈ raw_candidates) /\
  head (unique_of raw_candidates) = head raw_candidates /\
  unique_of (unique_of raw_candidates) = unique_of raw_candidates.
Proof.
  rewrite !unique_of_first_seen. split; [apply NoDup_first_seen|].
  split; [intros c; apply elem_of_first_seen|]. split.
  - by destruct raw_candidates.
  - apply first_seen_NoDup, NoDup_first_seen.
Qed.

(** ** The extractor as a whole *)

Lemma form_score c : form c -> exists sc, _score c = Ok sc.
Proof.
  destruct _score_forms as (H1 & H2 & H3).
  intros [D L HD HL|D HD|D HD]; eexists; eauto.
Qed.

(** The loop gathering the candidates of every text. *)
Lemma collect_candidates texts : forall acc,
  exists all_cands,
    for_each (fun all_cands t =>
                bind (_extract_from_text t) (fun found => Ok (all_cands ++ found)))
      texts acc = Ok all_cands /\
    forall x, x ∈ all_cands <->
              x ∈ acc \/
              exists t found, t ∈ texts /\ _extract_from_text t = Ok found /\ x ∈ found.
Proof.
  induction texts as [|t texts IH]; intros acc; cbn [for_each].
  - exists acc. split; [done|]. intros x. split; [auto|].
    intros [Hx|(t & found & Ht & _)]; [done|]. by apply elem_of_nil in Ht.
  - destruct (_extract_from_text_form t) as (found & Hfound & _).
    rewrite Hfound. cbn [bind].
    destruct (IH (acc ++ found)) as (all_cands & -> & Hall).
    exists all_cands. split; [done|]. intros x. rewrite Hall, elem_of_app. split.
    + intros [[Hx|Hx]|(t' & found' & Ht' & Hf' & Hx)]; [by left| |].
      * right. exists t, found. split; [by left|done].
      * right. exists t', found'. split; [by right|done].
    + intros [Hx|(t' & found' & Ht' & Hf' & Hx)]; [by left; left|].
      apply elem_of_cons in Ht' as [->|Ht'].
      * left. right. congruence.
      * right. by exists t', found'.
Qed.

Lemma build_score_map_total cands :
  (forall c, c ∈ cands -> exists sc, _score c = Ok sc) ->
  exists score_map, build_score_map cands = Ok score_map.
Proof.
  unfold build_score_map. generalize (∅ : gmap str Z).
  induction cands as [|c cands IH]; intros m H; cbn [for_each]; [by eexists|].
  destruct (H c) as [sc ->]; [by left|]. cbn [bind].
  apply IH. intros c' Hc'. apply H. by right.
Qed.

(** The entry of a candidate in the map built is its score. *)
Lemma build_score_map_lookup cands score_map c :
  build_score_map cands = Ok score_map -> c ∈ cands ->
  _score c = Ok (score_in score_map c).
Proof.
  intros H Hc.
  apply (build_score_map_aggregate_from cands []) in H as (occs & Hfst & Hsc & ->).
  cbn [app].
  assert (Forall (fun o : str * Z => (0 <= o.2)%Z) occs) as Hpos.
  { eapply Forall_impl; [exact Hsc|]. cbn. intros o Ho. by eapply _score_nonneg. }
  pose proof (aggregate_max occs Hpos c) as Hmax. unfold score_in.
  rewrite <- Hfst in Hc. apply list_elem_of_fmap in Hc as ([c' s] & -> & Hin).
  cbn [fst] in *.
  destruct (aggregate occs !! c') as [v|]; [|by apply Hmax in Hin].
  destruct Hmax as [Hv _]. cbn [default].
  rewrite Forall_forall in Hsc. exact (Hsc _ Hv).
Qed.

Lemma choose_best_cases self raw_candidates score_map ground_truth :
  raw_candidates <> [] ->
  (exists g, ground_truth = Some g /\ g <> [] /\
             choose_best self raw_candidates score_map ground_truth = Ok (Some g)) \/
  (exists b, choose_best self raw_candidates score_map ground_truth = Ok (Some b) /\
             first_max (score_in score_map) (unique_of raw_candidates) b).
Proof.
  intros Hne.
  assert (exists b, fallback (unique_of raw_candidates) score_map = Ok (Some b) /\
                    first_max (score_in score_map) (unique_of raw_candidates) b)
    as (b & Hb & Hmax).
  { apply fallback_first_max. destruct raw_candidates as [|r0 raw]; [done|].
    by destruct (unique_of_cons r0 raw) as [l' ->]. }
  destruct (truthy ground_truth) eqn:Htruthy.
  - destruct ground_truth as [[|g0 g']|]; try done.
    destruct (choose_best_reference self raw_candidates score_map (g0 :: g'))
      as (c & d & _ & _ & _ & Hres); [done..|].
    rewrite Hres. destruct (Z.of_nat d <=? max_snap self)%Z.
    + left. by exists (g0 :: g').
    + right. exists b. by rewrite choose_best_no_reference.
  - right. exists b. by rewrite choose_best_no_reference.
Qed.

(** The extractor, once the candidates are gathered. *)
Lemma extract_best_unfold self texts image_name :
  exists all_cands,
    (forall x, x ∈ all_cands <->
               exists t found, t ∈ texts /\ _extract_from_text t = Ok found /\ x ∈ found) /\
    Forall (fun c => form c /\ c <> []) all_cands /\
    (all_cands = [] -> extract_best_from_texts self texts image_name = Ok None) /\
    (all_cands <> [] ->
     exists score_map,
       build_score_map all_cands = Ok score_map /\
       extract_best_from_texts self texts image_name =
       choose_best (refiner self) all_cands score_map (reference_of self image_name)).
Proof.
  destruct (collect_candidates texts []) as (all_cands & Hcollect & Hall).
  assert (forall x, x ∈ all_cands <->
            exists t found, t ∈ texts /\ _extract_from_text t = Ok found /\ x ∈ found)
    as Hall'.
  { intros x. rewrite Hall. split; [|auto]. intros [Hx|Hx]; [|done].
    by apply elem_of_nil in Hx. }
  assert (Forall (fun c => form c /\ c <> []) all_cands) as Hcanon.
  { apply Forall_forall. intros x (t & found & _ & Hf & Hx)%Hall'.
    destruct (_extract_from_text_form t) as (found' & Hf' & Hc).
    rewrite Hf in Hf'. injection Hf' as <-. rewrite Forall_forall in Hc. by apply Hc. }
  exists all_cands. split; [done|]. split; [done|].
  unfold extract_best_from_texts. rewrite Hcollect. cbn [bind]. split.
  - by intros ->.
  - intros Hne. destruct (build_score_map_total all_cands) as [score_map Hmap].
    { intros c Hc. apply form_score.
      rewrite Forall_forall in Hcanon. by apply Hcanon. }
    exists score_map. split; [done|]. destruct all_cands; [done|].
    by rewrite Hmap.
Qed.

Lemma extract_best_outcome self texts image_name :
  exists r,
    extract_best_from_texts self texts image_name = Ok r /\
    (r = None <->
     forall t, t ∈ texts -> _extract_from_text t = Ok []) /\
    forall x, r = Some x ->
      x <> [] /\
      (reference_of self image_name = Some x \/
       (canonical 0 0 x /\
        exists t found, t ∈ texts /\ _extract_from_text t = Ok found /\ x ∈ found)).
Proof.
  destruct (extract_best_unfold self texts image_name)
    as (all_cands & Hall & Hcanon & Hnil & Hcons).
  assert (all_cands = [] <-> forall t, t ∈ texts -> _extract_from_text t = Ok [])
    as Hempty.
  { split.
    - intros -> t Ht.
      destruct (_extract_from_text_form t) as (found & Hf & _). rewrite Hf.
      destruct found as [|x found]; [done|].
      assert (x ∈ []) as Hx
        by (apply Hall; exists t, (x :: found); split; [done|]; split; [done|]; left).
      by apply elem_of_nil in Hx.
    - intros Hno. destruct all_cands as [|x l]; [done|].
      assert (x ∈ x :: l) as (t & found & Ht & Hf & Hx)%Hall by left.
      rewrite (Hno t Ht) in Hf. injection Hf as <-. by apply elem_of_nil in Hx. }
  destruct all_cands as [|c0 cands] eqn:Hcands.
  { exists None. split; [by apply Hnil|]. split; [|discriminate].
    split; [intros _; by apply Hempty|done]. }
  rewrite <- Hcands in *. assert (all_cands <> []) as Hne by (by rewrite Hcands).
  destruct (Hcons Hne) as (score_map & Hmap & ->).
  destruct (choose_best_cases (refiner self) all_cands score_map
              (reference_of self image_name) Hne)
    as [(g & Href & Hg & ->)|(b & -> & Hmax)].
  - exists (Some g). split; [done|]. split.
    + split; [discriminate|]. intros Hno. by apply Hempty in Hno.
    + intros x [= <-]. split; [done|]. by left.
  - exists (Some b). split; [done|]. split.
    + split; [discriminate|]. intros Hno. by apply Hempty in Hno.
    + intros x [= <-]. apply first_max_elem in Hmax.
      apply (proj1 (elem_of_unique_of _ _)) in Hmax.
      assert (form b /\ b <> []) as [Hc Hnb]
        by (rewrite Forall_forall in Hcanon; by apply Hcanon).
      split; [done|]. right. split; [by apply form_canonical|]. by apply Hall.
Qed.

(** X9: the extractor never raises.  It returns None exactly when no text
    yields a candidate.  What it returns otherwise is never the empty
    string: it is the reference of the image, or a candidate extracted from
    one of the texts, which is a run of digits 0 to 9, [_1_] and lower-case
    letters, or a run of digits and [_1], or a run of digits, where the run
    and the letters may be empty. *)
Theorem extract_best_returns self texts image_name :
  exists r,
    extract_best_from_texts self texts image_name = Ok r /\
    (r = None <->
     forall t, t ∈ texts -> _extract_from_text t = Ok []) /\
    forall x, r = Some x ->
      x <> [] /\
      (reference_of self image_name = Some x \/
       (canonical 0 0 x /\
        exists t found, t ∈ texts /\ _extract_from_text t = Ok found /\ x ∈ found)).
Proof. apply extract_best_outcome. Qed.

Lemma complete_code_score c : complete_code c -> _score c = Ok 170%Z.
Proof.
  intros (D & L & -> & HD & HL & HlD & HlL).
  rewrite (proj1 _score_forms D L HD HL). unfold spec_score_suffix.
  by rewrite HlD, HlL.
Qed.

Lemma form_score_le c sc : form c -> _score c = Ok sc -> (sc <= 170)%Z.
Proof.
  destruct _score_forms as (H1 & H2 & H3).
  intros [D L HD HL|D HD|D HD] Hsc.
  - assert (sc = spec_score_suffix D L) as -> by (rewrite (H1 D L HD HL) in Hsc; congruence).
    unfold spec_score_suffix.
    destruct (length D =? 18), (16 <=? length D), (length L =? 3); lia.
  - rewrite (H2 D HD) in Hsc.
    destruct (15 <=? length D), (13 <=? length D); injection Hsc as <-; lia.
  - rewrite (H3 D HD) in Hsc. unfold spec_score_bare in Hsc.
    destruct (15 <=? length D); injection Hsc as <-; lia.
Qed.

Lemma score_170_complete c : form c -> _score c = Ok 170%Z -> complete_code c.
Proof.
  destruct _score_forms as (H1 & H2 & H3).
  intros [D L HD HL|D HD|D HD] Hsc.
  - assert (spec_score_suffix D L = 170%Z) as H
      by (rewrite (H1 D L HD HL) in Hsc; congruence).
    unfold spec_score_suffix in H.
    exists D, L. split; [done|]. split; [done|]. split; [done|].
    destruct (Nat.eqb_spec (length D) 18), (16 <=? length D),
      (Nat.eqb_spec (length L) 3); (done || lia).
  - rewrite (H2 D HD) in Hsc.
    destruct (15 <=? length D), (13 <=? length D); discriminate.
  - rewrite (H3 D HD) in Hsc. unfold spec_score_bare in Hsc.
    destruct (15 <=? length D); discriminate.
Qed.

(** X10: canonical shape precedence.  When some text yields a candidate
    of 18 digits, [_1_] and 3 letters, the extractor returns a candidate of
    that shape extracted from the texts, unless it returns the reference of
    the image. *)
Theorem complete_code_wins self texts image_name t found c :
  t ∈ texts -> _extract_from_text t = Ok found -> c ∈ found -> complete_code c ->
  exists x,
    extract_best_from_texts self texts image_name = Ok (Some x) /\
    (reference_of self image_name = Some x \/
     (complete_code x /\
      exists t' found', t' ∈ texts /\ _extract_from_text t' = Ok found' /\ x ∈ found')).
Proof.
  intros Ht Hfound Hc Hcomplete.
  destruct (extract_best_unfold self texts image_name)
    as (all_cands & Hall & Hcanon & _ & Hcons).
  assert (c ∈ all_cands) as Hcall by (apply Hall; by exists t, found).
  assert (all_cands <> []) as Hne.
  { intros Hnil. rewrite Hnil in Hcall. by apply elem_of_nil in Hcall. }
  destruct (Hcons Hne) as (score_map & Hmap & ->).
  destruct (choose_best_cases (refiner self) all_cands score_map
              (reference_of self image_name) Hne)
    as [(g & Href & Hg & ->)|(b & -> & Hmax)].
  - exists g. split; [done|]. by left.
  - exists b. split; [done|]. right.
    pose proof (first_max_elem _ _ _ Hmax) as Hb.
    apply (proj1 (elem_of_unique_of _ _)) in Hb.
    split; [|by apply Hall].
    assert (form b) as Hform.
    { rewrite Forall_forall in Hcanon. by apply Hcanon. }
    pose proof (build_score_map_lookup all_cands score_map c Hmap Hcall) as Hsc.
    pose proof (build_score_map_lookup all_cands score_map b Hmap Hb) as Hsb.
    rewrite (complete_code_score c Hcomplete) in Hsc. injection Hsc as Hsc.
    pose proof (form_score_le b _ Hform Hsb) as Hle.
    apply (score_170_complete b Hform). rewrite Hsb. f_equal.
    destruct Hmax as (l1 & l2 & Heq & H1 & H2).
    assert (c ∈ unique_of all_cands) as Hcu by (by apply elem_of_unique_of).
    rewrite Heq, elem_of_app, elem_of_cons in Hcu.
    destruct Hcu as [Hc1|[->|Hc2]];
      [apply H1 in Hc1; lia|lia|apply H2 in Hc2; lia].
Qed.

Lemma complete_code_wins_witness :
  exists x,
    extract_best_from_texts (TextExtractor.init None None)
      [lit "ref 1234567890123456"; lit "id 123456789012345678_1_aBc"] None =
    Ok (Some x) /\
    (reference_of (TextExtractor.init None None) None = Some x \/
     (complete_code x /\
      exists t' found',
        t' ∈ [lit "ref 1234567890123456"; lit "id 123456789012345678_1_aBc"] /\
        _extract_from_text t' = Ok found' /\ x ∈ found')).
Proof.
  apply (complete_code_wins (TextExtractor.init None None)
           [lit "ref 1234567890123456"; lit "id 123456789012345678_1_aBc"] None
           (lit "id 123456789012345678_1_aBc")
           [lit "123456789012345678_1_abc"; lit "123456789012345678_1_abc";
            lit "123456789012345678_1_abc"; lit "123456789012345678_1";
            lit "123456789012345678"]
           (lit "123456789012345678_1_abc")).
  - right. left.
  - by vm_compute.
  - left.
  - exists (lit "123456789012345678"), (lit "abc"). by repeat split.
Defined.

(** ** Cleaning *)

Lemma filter_non_all cls (x : str) :
  forallb cls x = true -> List.filter (non cls) x = [].
Proof.
  induction x as [|c x IH]; [done|]. cbn [forallb List.filter]. unfold non at 1.
  intros [-> Hx]%andb_prop. cbn [negb]. by apply IH.
Qed.

Lemma replace_char_filter x y s :
  is_space (ch x) = true -> is_space (ch y) = true ->
  List.filter (non is_space) (replace_char x y s) = List.filter (non is_space) s.
Proof.
  intros Hx Hy. induction s as [|c s IH]; [done|].
  cbn [replace_char map List.filter]. fold (replace_char x y s). rewrite IH.
  destruct (N.eqb_spec c (ch x)) as [->|_]; [|done].
  unfold non. by rewrite Hx, Hy.
Qed.

Lemma filter_non_space_cons c s :
  List.filter (non is_space) (c :: s) =
  if is_space c then List.filter (non is_space) s
  else c :: List.filter (non is_space) s.
Proof.
  cbn [List.filter]. change (non is_space c) with (negb (is_space c)).
  by destruct (is_space c).
Qed.

Lemma words_go_filter s : forall cur,
  forallb (non is_space) cur = true ->
  List.filter (non is_space) (join (lit " ") (words_go cur s)) =
  rev cur ++ List.filter (non is_space) s.
Proof.
  induction s as [|c s IH]; intros cur Hcur.
  - cbn [words_go List.filter]. rewrite app_nil_r. destruct cur as [|c0 cur]; [done|].
    cbn [join]. apply forallb_filter_id.
    rewrite forallb_forall in *. intros x Hx. apply Hcur. by apply in_rev.
  - cbn [words_go]. rewrite filter_non_space_cons. destruct (is_space c) eqn:Hc.
    + destruct cur as [|c0 cur]; [by apply IH|].
      assert (List.filter (non is_space) (rev (c0 :: cur)) = rev (c0 :: cur)) as Hrev.
      { apply forallb_filter_id. rewrite forallb_forall in *.
        intros x Hx. apply Hcur. by apply in_rev. }
      specialize (IH [] eq_refl). cbn [rev app] in IH.
      cbn [join]. destruct (words_go [] s) as [|w ws] eqn:Hw.
      * cbn [join] in IH. by rewrite <- IH, app_nil_r.
      * rewrite !List.filter_app, Hrev, IH. reflexivity.
    + rewrite IH.
      * cbn [rev]. by rewrite <- app_assoc.
      * cbn [forallb]. unfold non at 1. by rewrite Hc.
Qed.

(** A substitution whose matches and replacement agree on the characters
    of a class keeps these characters. *)
Lemma sub_go_filter cls p repl :
  (forall prev s len,
     match_here p prev s = Some (S len) ->
     List.filter cls (take (S len) s) = List.filter cls repl) ->
  forall s skip prev,
    List.filter cls (sub_go p repl skip prev s) = List.filter cls (drop skip s).
Proof.
  intros Hmatch. induction s as [|c s IH]; intros skip prev.
  - by destruct skip.
  - cbn [sub_go]. destruct skip as [|k]; [|apply IH].
    rewrite drop_0.
    destruct (match_here p prev (c :: s)) as [[|len]|] eqn:Hm.
    + cbn [List.filter]. by rewrite IH, drop_0.
    + rewrite List.filter_app, IH, <- (Hmatch _ _ _ Hm), <- List.filter_app.
      change (drop len s) with (drop (S len) (c :: s)). by rewrite take_drop.
    + cbn [List.filter]. by rewrite IH, drop_0.
Qed.

Lemma match_separator prev s len :
  match_here re_separator prev s = Some len ->
  List.filter (non is_space) (take len s) = lit "_".
Proof.
  unfold re_separator, spaces.
  intros (j1 & len1 & Hj1 & Hm1 & ->)%match_here_Rep.
  apply match_here_Rep in Hm1 as (j2 & len2 & Hj2 & Hm2 & ->).
  apply match_here_Rep in Hm2 as (j3 & len3 & Hj3 & Hm3 & ->).
  injection Hm3 as <-. cbn [cap] in *.
  rewrite Nat.add_0_r, <- !take_take_drop, !List.filter_app.
  rewrite (filter_non_all is_space (take j1 s)) by (apply span_take_all; lia).
  rewrite (filter_non_all is_space (take j3 _)) by (apply span_take_all; lia).
  assert (j2 = 1) as -> by lia.
  destruct (drop j1 s) as [|c s1]; [cbn in Hj2; lia|].
  cbn [span] in Hj2. unfold is_char at 1 in Hj2.
  destruct (N.eqb_spec (ch "_") c) as [<-|]; [|lia]. reflexivity.
Qed.

Lemma match_digit_gap prev s len :
  match_here re_digit_gap prev s = Some len ->
  List.filter (non is_space) (take len s) = [].
Proof.
  unfold re_digit_gap. cbn [match_here]. destruct prev as [x|]; [|done].
  destruct (is_decimal x); [|done].
  intros (j & Hj & Hr)%backtrack_Some.
  destruct (drop j s) as [|c s']; [done|]. destruct (is_decimal c); [|done].
  injection Hr as <-. rewrite Nat.add_0_r.
  apply filter_non_all, span_take_all. cbn [cap] in Hj. lia.
Qed.

Lemma sub_go_chars (P : char -> Prop) p repl :
  Forall P repl -> forall s skip prev, Forall P s -> Forall P (sub_go p repl skip prev s).
Proof.
  intros Hrepl. induction s as [|c s IH]; intros skip prev Hs; [done|].
  apply Forall_cons in Hs as [Hc Hs]. cbn [sub_go].
  destruct skip as [|k]; [|by apply IH].
  destruct (match_here p prev (c :: s)) as [[|len]|].
  - constructor; [done|by apply IH].
  - apply Forall_app. split; [done|by apply IH].
  - constructor; [done|by apply IH].
Qed.

Lemma words_go_chars s : forall cur,
  Forall (fun c => is_space c = false) cur ->
  Forall (fun c => is_space c = true -> c = ch " ") (join (lit " ") (words_go cur s)).
Proof.
  assert (forall cur, Forall (fun c => is_space c = false) cur ->
            Forall (fun c => is_space c = true -> c = ch " ") (rev cur)) as Hrev.
  { intros cur Hcur. apply Forall_rev. eapply Forall_impl; [exact Hcur|].
    cbn. congruence. }
  induction s as [|c s IH]; intros cur Hcur; cbn [words_go].
  - destruct cur; [done|]. cbn [join]. by apply Hrev.
  - destruct (is_space c) eqn:Hc.
    + destruct cur as [|c0 cur]; [by apply IH|].
      cbn [join]. specialize (IH [] ltac:(done)).
      destruct (words_go [] s) as [|w ws]; [by apply Hrev|].
      apply Forall_app. split; [by apply Hrev|]. by constructor.
    + apply IH. by constructor.
Qed.

(** X11: cleaning touches white space only: the characters of the text
    that are not white space are those of the cleaned text, in the same
    order, and the white space left in the cleaned text is made of plain
    spaces. *)
Theorem clean_text_keeps_characters (t : str) :
  List.filter (non is_space) (_clean_text t) = List.filter (non is_space) t /\
  Forall (fun c => is_space c = true -> c = ch " ") (_clean_text t).
Proof.
  unfold _clean_text. cbv zeta. split.
  - unfold sub.
    rewrite (sub_go_filter _ re_digit_gap []), drop_0.
    2:{ intros prev s len H. by apply match_digit_gap in H. }
    rewrite (sub_go_filter _ re_separator (lit "_")), drop_0.
    2:{ intros prev s len H. by apply match_separator in H. }
    unfold words. rewrite words_go_filter by done. cbn [rev app].
    by rewrite !replace_char_filter.
  - unfold sub. apply sub_go_chars; [done|]. apply sub_go_chars.
    + by repeat constructor.
    + by apply words_go_chars.
Qed.

(** ** The texts of the OCR engine *)

Lemma lstrip_lstrip s : lstrip (lstrip s) = lstrip s.
Proof.
  induction s as [|c s IH]; [done|]. cbn [lstrip].
  destruct (is_space c) eqn:Hc; [done|]. cbn [lstrip]. by rewrite Hc.
Qed.

Lemma lstrip_head s :
  lstrip s = [] \/ exists c y, lstrip s = c :: y /\ is_space c = false.
Proof.
  induction s as [|c s IH]; [by left|]. cbn [lstrip].
  destruct (is_space c) eqn:Hc; [done|]. right. by exists c, s.
Qed.

Lemma strip_strip s : strip (strip s) = strip s.
Proof.
  unfold strip at 1.
  assert (lstrip (strip s) = strip s) as ->.
  { unfold strip. destruct (lstrip_head s) as [->|(c & y & Hs & Hc)]; [done|].
    rewrite Hs.
    destruct (strip_keeps_prefix [c] y) as [r' Hr]; [done|by cbn; unfold non; rewrite Hc|].
    unfold strip in Hr. cbn [app] in Hr. cbn [lstrip] in Hr. rewrite Hc in Hr.
    rewrite Hr. cbn [app lstrip]. by rewrite Hc. }
  unfold strip, rstrip. by rewrite rev_involutive, lstrip_lstrip.
Qed.

Section Dedupe.

Let step (final : list str) (t : str) : list str :=
  match strip t with
  | [] => final
  | x => if decide (x ∈ final) then final else final ++ [x]
  end.

Lemma dedupe_fold out : forall final,
  NoDup final ->
  NoDup (foldl step final out) /\
  forall x, x ∈ foldl step final out <->
            x ∈ final \/ (x <> [] /\ exists t, t ∈ out /\ strip t = x).
Proof.
  induction out as [|t out IH]; intros final Hnd; cbn [foldl].
  - split; [done|]. intros x. split; [auto|]. intros [Hx|(_ & t & Ht & _)]; [done|].
    by apply elem_of_nil in Ht.
  - assert (NoDup (step final t) /\
            forall x, x ∈ step final t <-> x ∈ final \/ (x <> [] /\ strip t = x))
      as [Hnd' Hstep].
    { unfold step. destruct (strip t) as [|c y] eqn:Hs.
      - split; [done|]. intros x. split; [auto|]. intros [Hx|[Hx <-]]; done.
      - destruct (decide (c :: y ∈ final)) as [Hin|Hnin].
        + split; [done|]. intros x. split; [auto|]. intros [Hx|[_ <-]]; done.
        + split.
          * apply NoDup_app. split; [done|]. split; [|apply NoDup_singleton].
            intros x Hx ->%list_elem_of_singleton. done.
          * intros x. rewrite elem_of_app, list_elem_of_singleton. split.
            -- intros [Hx| ->]; [by left|by right].
            -- intros [Hx|[_ <-]]; [by left|by right]. }
    destruct (IH (step final t) Hnd') as [Hnd'' Hall]. split; [done|].
    intros x. rewrite Hall, Hstep. split.
    + intros [[Hx|[Hne Hx]]|(Hne & t' & Ht' & Hx)]; [by left| |].
      * right. split; [done|]. exists t. split; [by left|done].
      * right. split; [done|]. exists t'. split; [by right|done].
    + intros [Hx|(Hne & t' & [->|Ht']%elem_of_cons & Hx)]; [by left; left| |].
      * left. by right.
      * right. split; [done|]. by exists t'.
Qed.

Lemma dedupe_fold_id l : forall final,
  NoDup (final ++ l) ->
  (forall x, x ∈ l -> x <> [] /\ strip x = x) ->
  foldl step final l = final ++ l.
Proof.
  induction l as [|x l IH]; intros final Hnd Hl; cbn [foldl].
  - by rewrite app_nil_r.
  - destruct (Hl x) as [Hne Hx]; [by left|].
    assert (step final x = final ++ [x]) as ->.
    { unfold step. rewrite Hx. destruct x as [|c y]; [done|].
      apply NoDup_app in Hnd as (_ & Hdisj & _).
      rewrite decide_False; [done|]. intros Hin. apply (Hdisj _ Hin). by left. }
    rewrite IH.
    + by rewrite <- app_assoc.
    + by rewrite <- app_assoc.
    + intros y Hy. apply Hl. by right.
Qed.

End Dedupe.

Lemma dedupe_spec out :
  NoDup (OCREngine.dedupe out) /\
  (forall x, x ∈ OCREngine.dedupe out <->
             x <> [] /\ exists t, t ∈ out /\ strip t = x) /\
  (forall x, x ∈ OCREngine.dedupe out -> strip x = x) /\
  OCREngine.dedupe (OCREngine.dedupe out) = OCREngine.dedupe out.
Proof.
  destruct (dedupe_fold out []) as [Hnd Hall]; [constructor|].
  assert (forall x, x ∈ OCREngine.dedupe out <->
            x <> [] /\ exists t, t ∈ out /\ strip t = x) as Hmem.
  { intros x. unfold OCREngine.dedupe. rewrite Hall. split; [|auto].
    intros [Hx|Hx]; [by apply elem_of_nil in Hx|done]. }
  assert (forall x, x ∈ OCREngine.dedupe out -> strip x = x) as Hstripped.
  { intros x (_ & t & _ & <-)%Hmem. apply strip_strip. }
  split; [exact Hnd|]. split; [exact Hmem|]. split; [exact Hstripped|].
  unfold OCREngine.dedupe at 1. rewrite dedupe_fold_id; [done|done|].
  intros x Hx. split; [by apply Hmem in Hx as [? _]|by apply Hstripped].
Qed.

(** X12: whatever the recognizers return, the texts that [ocr_rois] hands
    over have no duplicates, none of them is empty and none starts or ends
    with white space; the last loop keeps exactly the stripped, non-empty
    texts it is given and changes nothing when run on its own result. *)
Theorem ocr_texts_are_unique
  (image : Type) (image_to_string : image -> string -> result str)
  (readtext : image -> result (list str)) (generate_variants : image -> list image)
  (self : OCREngine.t) (rois : list image) (out : list str) :
  let texts := OCREngine.ocr_rois image image_to_string readtext generate_variants
                 self rois in
  (NoDup texts /\ forall x, x ∈ texts -> x <> [] /\ strip x = x) /\
  NoDup (OCREngine.dedupe out) /\
  (forall x, x ∈ OCREngine.dedupe out <->
             x <> [] /\ exists t, t ∈ out /\ strip t = x) /\
  OCREngine.dedupe (OCREngine.dedupe out) = OCREngine.dedupe out.
Proof.
  cbv zeta. unfold OCREngine.ocr_rois. cbv zeta. split.
  - match goal with
    | |- context [OCREngine.dedupe ?o] =>
        destruct (dedupe_spec o) as (Hnd & Hmem & Hstr & _)
    end.
    split; [done|]. intros x Hx. split; [by apply Hmem in Hx as [? _]|by apply Hstr].
  - destruct (dedupe_spec out) as (Hnd & Hmem & _ & Hid). done.
Qed.

Example ocr_dedupe_example :
  OCREngine.dedupe [lit " 123_1_abc"; lit "123_1_abc "; lit "  "; lit "x"; lit "123_1_abc"] =
  [lit "123_1_abc"; lit "x"].
Proof. by vm_compute. Qed.

(** ** The barcode reader *)

Lemma filter_head (f : str -> bool) l x l' :
  List.filter f l = x :: l' ->
  exists l1 l2, l = l1 ++ x :: l2 /\ f x = true /\ forall c, c ∈ l1 -> f c = false.
Proof.
  induction l as [|c l IH]; [done|]. cbn [List.filter].
  destruct (f c) eqn:Hc.
  - intros [= -> _]. exists [], l. split; [done|]. split; [done|].
    intros y Hy. by apply elem_of_nil in Hy.
  - intros (l1 & l2 & -> & Hx & Hl1)%IH. exists (c :: l1), l2.
    split; [done|]. split; [done|].
    intros y [->|Hy]%elem_of_cons; [done|by apply Hl1].
Qed.

Lemma filter_nil_all (f : str -> bool) l :
  List.filter f l = [] -> forall c, c ∈ l -> f c = false.
Proof.
  induction l as [|c l IH]; intros H y Hy; [by apply elem_of_nil in Hy|].
  cbn [List.filter] in H. destruct (f c) eqn:Hc; [done|].
  apply elem_of_cons in Hy as [->|Hy]; [done|by apply IH].
Qed.

(** X13: the barcode reader answers None exactly for an empty list of
    candidates; it returns the first candidate of 18 characters when there
    is one, and otherwise the first of the longest candidates. *)
Theorem choose_best_number_prefers_18 (candidates : list str) :
  exists r,
    BarcodeReader.choose_best_number candidates = Ok r /\
    (r = None <-> candidates = []) /\
    forall x, r = Some x ->
      exists l1 l2,
        candidates = l1 ++ x :: l2 /\
        ((length x = 18 /\ forall c, c ∈ l1 -> length c <> 18) \/
         ((forall c, c ∈ candidates -> length c <> 18) /\
          (forall c, c ∈ l1 -> length c < length x) /\
          (forall c, c ∈ l2 -> length c <= length x))).
Proof.
  unfold BarcodeReader.choose_best_number.
  destruct candidates as [|c0 l]; [by exists None|].
  destruct (List.filter (fun c => length c =? 18) (c0 :: l)) as [|x l'] eqn:Hf.
  - destruct (max_by_first_max (fun c => Z.of_nat (length c)) c0 l)
      as (b & -> & l1 & l2 & Heq & H1 & H2).
    exists (Some b). split; [done|]. split; [done|].
    intros x [= <-]. exists l1, l2. split; [done|]. right. split; [|split].
    + intros c Hc. pose proof (filter_nil_all _ _ Hf c Hc) as H. cbn in H.
      by apply Nat.eqb_neq.
    + intros c Hc. apply H1 in Hc. lia.
    + intros c Hc. apply H2 in Hc. lia.
  - apply filter_head in Hf as (l1 & l2 & Heq & Hx & Hl1).
    exists (Some x). split; [done|]. split; [done|].
    intros y [= <-]. exists l1, l2. split; [done|]. left.
    split; [by apply Nat.eqb_eq|]. intros c Hc. by apply Nat.eqb_neq, Hl1.
Qed.

(** The order of strings. *)

Lemma str_ltb_irrefl x : BarcodeReader.str_ltb x x = false.
Proof.
  induction x as [|a x IH]; [done|]. cbn [BarcodeReader.str_ltb].
  by rewrite N.ltb_irrefl, IH, andb_false_r.
Qed.

Lemma str_ltb_trans x : forall y z,
  BarcodeReader.str_ltb x y = true -> BarcodeReader.str_ltb y z = true ->
  BarcodeReader.str_ltb x z = true.
Proof.
  induction x as [|a x IH]; intros [|b y] [|c z]; cbn [BarcodeReader.str_ltb];
    try done.
  intros [Hab|[Hab Hxy]%andb_prop]%orb_prop [Hbc|[Hbc Hyz]%andb_prop]%orb_prop;
    apply orb_true_iff.
  - left. apply N.ltb_lt in Hab, Hbc. apply N.ltb_lt. lia.
  - left. apply N.eqb_eq in Hbc as <-. done.
  - left. apply N.eqb_eq in Hab as <-. done.
  - right. apply N.eqb_eq in Hab as <-. rewrite Hbc. by rewrite (IH y z).
Qed.

Lemma str_ltb_total x : forall y,
  x <> y -> BarcodeReader.str_ltb x y = true \/ BarcodeReader.str_ltb y x = true.
Proof.
  induction x as [|a x IH]; intros [|b y] Hne; cbn [BarcodeReader.str_ltb];
    [done|by left|by right|].
  destruct (N.lt_trichotomy a b) as [Hlt|[<-|Hgt]].
  - left. by rewrite (proj2 (N.ltb_lt _ _) Hlt).
  - rewrite N.eqb_refl, N.ltb_irrefl. cbn [orb andb].
    apply IH. congruence.
  - right. by rewrite (proj2 (N.ltb_lt _ _) Hgt).
Qed.

Lemma key_ltb_trans x y z :
  BarcodeReader.key_ltb x y = true -> BarcodeReader.key_ltb y z = true ->
  BarcodeReader.key_ltb x z = true.
Proof.
  unfold BarcodeReader.key_ltb.
  intros [Hxy|[Hxy Hsxy]%andb_prop]%orb_prop [Hyz|[Hyz Hsyz]%andb_prop]%orb_prop;
    apply orb_true_iff;
    rewrite ?Nat.ltb_lt, ?Nat.eqb_eq, ?andb_true_iff, ?Nat.eqb_eq in *.
  - left. lia.
  - left. lia.
  - left. lia.
  - right. split; [lia|]. by apply (str_ltb_trans x y z).
Qed.

Lemma key_ltb_total x y :
  x <> y -> BarcodeReader.key_ltb x y = true \/ BarcodeReader.key_ltb y x = true.
Proof.
  intros Hne. unfold BarcodeReader.key_ltb.
  destruct (Nat.lt_trichotomy (length x) (length y)) as [Hlt|[Heq|Hgt]].
  - right. by rewrite (proj2 (Nat.ltb_lt _ _) Hlt).
  - rewrite Heq, Nat.ltb_irrefl, Nat.eqb_refl. cbn [orb andb].
    by apply str_ltb_total.
  - left. by rewrite (proj2 (Nat.ltb_lt _ _) Hgt).
Qed.

Lemma key_ltb_length x y :
  BarcodeReader.key_ltb x y = true -> length y <= length x.
Proof.
  unfold BarcodeReader.key_ltb.
  intros [Hlt|[Heq _]%andb_prop]%orb_prop.
  - apply Nat.ltb_lt in Hlt. lia.
  - apply Nat.eqb_eq in Heq. lia.
Qed.

Lemma elem_of_insert_sorted x l y :
  y ∈ BarcodeReader.insert_sorted x l <-> y = x \/ y ∈ l.
Proof.
  induction l as [|z l IH]; cbn [BarcodeReader.insert_sorted].
  - rewrite list_elem_of_singleton. split; [by left|].
    intros [->|Hy]; [done|]. by apply elem_of_nil in Hy.
  - destruct (BarcodeReader.key_ltb z x); rewrite !elem_of_cons, ?IH; tauto.
Qed.

Lemma insert_sorted_sorted x l :
  x ∉ l ->
  StronglySorted (fun a b => BarcodeReader.key_ltb a b = true) l ->
  StronglySorted (fun a b => BarcodeReader.key_ltb a b = true)
    (BarcodeReader.insert_sorted x l).
Proof.
  intros Hx Hs. induction Hs as [|z l Hs IH Hz]; cbn [BarcodeReader.insert_sorted].
  - repeat constructor.
  - apply not_elem_of_cons in Hx as [Hxz Hxl].
    destruct (BarcodeReader.key_ltb z x) eqn:Hzx.
    + constructor; [by apply IH|].
      apply Forall_forall. intros y [->|Hy]%elem_of_insert_sorted; [done|].
      rewrite Forall_forall in Hz. by apply Hz.
    + assert (BarcodeReader.key_ltb x z = true) as Hxz'.
      { destruct (key_ltb_total x z Hxz) as [H|H]; [done|congruence]. }
      constructor; [by constructor|]. constructor; [done|].
      rewrite Forall_forall in *. intros y Hy.
      by apply (key_ltb_trans x z y), Hz.
Qed.

Lemma sort_elements l :
  NoDup l ->
  StronglySorted (fun a b => BarcodeReader.key_ltb a b = true)
    (foldr BarcodeReader.insert_sorted [] l) /\
  forall y, y ∈ foldr BarcodeReader.insert_sorted [] l <-> y ∈ l.
Proof.
  induction l as [|x l IH]; intros Hnd; cbn [foldr].
  - split; [constructor|done].
  - apply NoDup_cons in Hnd as [Hx Hnd]. destruct (IH Hnd) as [Hs Hmem]. split.
    + apply insert_sorted_sorted; [by rewrite Hmem|done].
    + intros y. rewrite elem_of_insert_sorted, Hmem, elem_of_cons. tauto.
Qed.

Lemma long_digits_match prev s len :
  match_here BarcodeReader.re_long_digits prev s = Some len ->
  10 <= len /\ forallb is_decimal (take len s) = true /\ length (take len s) = len.
Proof.
  pose proof (span_le is_decimal s) as Hle.
  intros (j & len' & Hj & Hm & ->)%match_here_Rep. injection Hm as <-.
  cbn [cap] in Hj. rewrite Nat.add_0_r. split; [lia|].
  split; [apply span_take_all; lia|]. rewrite length_take. lia.
Qed.

Lemma decode_candidates texts : forall acc x,
  x ∈ foldl (fun candidates t =>
               foldl (fun candidates (m : str) =>
                        if 15 <=? length m then candidates ++ [m] else candidates)
                 candidates (finditer BarcodeReader.re_long_digits t))
        acc texts <->
  x ∈ acc \/
  exists t, t ∈ texts /\ x ∈ finditer BarcodeReader.re_long_digits t /\ 15 <= length x.
Proof.
  assert (forall ms acc x,
            x ∈ foldl (fun candidates (m : str) =>
                         if 15 <=? length m then candidates ++ [m] else candidates)
                  acc ms <->
            x ∈ acc \/ (x ∈ ms /\ 15 <= length x)) as Hinner.
  { induction ms as [|m ms IH]; intros acc x; cbn [foldl].
    - split; [auto|]. intros [Hx|[Hx _]]; [done|]. by apply elem_of_nil in Hx.
    - rewrite IH, elem_of_cons. destruct (Nat.leb_spec 15 (length m)).
      + rewrite elem_of_app, list_elem_of_singleton. split.
        * intros [[Hx| ->]|[Hx Hlen]]; auto.
        * intros [Hx|[[->|Hx] Hlen]]; auto.
      + split; [intros [Hx|[Hx Hlen]]; auto|].
        intros [Hx|[[->|Hx] Hlen]]; [auto|lia|auto]. }
  induction texts as [|t texts IH]; intros acc x; cbn [foldl].
  - split; [auto|]. intros [Hx|(t & Ht & _)]; [done|]. by apply elem_of_nil in Ht.
  - rewrite IH, Hinner. split.
    + intros [[Hx|[Hx Hlen]]|(t' & Ht' & Hx & Hlen)]; [by left| |].
      * right. exists t. split; [by left|done].
      * right. exists t'. split; [by right|done].
    + intros [Hx|(t' & [->|Ht']%elem_of_cons & Hx & Hlen)]; [by left; left| |].
      * left. by right.
      * right. by exists t'.
Qed.

(** X14: the numeric candidates that [decode_digits] draws from the
    decoded texts are the runs of decimal digits matched by [\d{10,}] that
    have 15 digits or more, each listed once, the longer before the shorter and, at
    equal length, in the order of strings. *)
Theorem decode_digits_sorted (texts : list str) :
  NoDup (BarcodeReader.decode_digits texts) /\
  StronglySorted (fun a b => BarcodeReader.key_ltb a b = true)
    (BarcodeReader.decode_digits texts) /\
  (forall i j a b,
     BarcodeReader.decode_digits texts !! i = Some a ->
     BarcodeReader.decode_digits texts !! j = Some b ->
     i < j -> length b <= length a) /\
  (forall x, x ∈ BarcodeReader.decode_digits texts <->
             exists t, t ∈ texts /\ x ∈ finditer BarcodeReader.re_long_digits t /\
                       15 <= length x) /\
  (forall x, x ∈ BarcodeReader.decode_digits texts ->
             forallb is_decimal x = true /\ 15 <= length x).
Proof.
  unfold BarcodeReader.decode_digits. cbv zeta.
  set (candidates := foldl _ [] texts).
  pose proof (decode_candidates texts [] : forall x, x ∈ candidates <-> _) as Hcand.
  unfold BarcodeReader.sorted_by_key.
  destruct (sort_elements (elements (list_to_set candidates : gset str)))
    as [Hsorted Hmem]; [apply NoDup_elements|].
  assert (forall x, x ∈ foldr BarcodeReader.insert_sorted []
                      (elements (list_to_set candidates : gset str)) <->
            exists t, t ∈ texts /\ x ∈ finditer BarcodeReader.re_long_digits t /\
                      15 <= length x) as Hmem'.
  { intros x. rewrite Hmem, elem_of_elements, elem_of_list_to_set, Hcand.
    split; [|auto]. intros [Hx|Hx]; [by apply elem_of_nil in Hx|done]. }
  assert (forall l, StronglySorted (fun a b => BarcodeReader.key_ltb a b = true) l ->
            NoDup l /\
            forall i j a b, l !! i = Some a -> l !! j = Some b -> i < j ->
                            length b <= length a) as Hstrict.
  { induction 1 as [|z l Hs [IHnd IHlen] Hz].
    - split; [constructor|]. intros i j a b Hi. by rewrite lookup_nil in Hi.
    - rewrite Forall_forall in Hz. split.
      + constructor; [|done]. intros Hin. apply Hz in Hin.
        unfold BarcodeReader.key_ltb in Hin.
        by rewrite Nat.ltb_irrefl, str_ltb_irrefl, andb_false_r in Hin.
      + intros i j a b Hi Hj Hij. destruct j as [|j]; [lia|]. cbn in Hj.
        destruct i as [|i].
        * injection Hi as <-. apply key_ltb_length, Hz.
          by eapply list_elem_of_lookup_2.
        * cbn in Hi. apply (IHlen i j); [done|done|lia]. }
  destruct (Hstrict _ Hsorted) as [Hnd Hlen].
  split; [done|]. split; [done|]. split; [done|]. split; [done|].
  intros x (t & Ht & Hx & H15)%Hmem'. split; [|done].
  apply finditer_go_sound in Hx as (prev & s & len & Hm & ->).
  by apply long_digits_match in Hm as (_ & Hd & _).
Qed.

Example decode_digits_example :
  BarcodeReader.decode_digits
    [lit "id 123456789012345 and 1234567890 then 999999999999999999";
     lit "123456789012346x123456789012345"] =
  [lit "999999999999999999"; lit "123456789012345"; lit "123456789012346"].
Proof. by vm_compute. Qed.

(** ** The ground truth *)

Section GroundTruth.

Let step (gt : gmap str str) (row : list str) : gmap str str :=
  match row with
  | image_name :: truth :: _ => <[strip image_name := strip truth]> gt
  | _ => gt
  end.

Lemma load_snoc rows row :
  Utils.load_ground_truth (Some (rows ++ [row])) =
  step (Utils.load_ground_truth (Some rows)) row.
Proof. unfold Utils.load_ground_truth. by rewrite foldl_app. Qed.

Lemma load_lookup rows k :
  match Utils.load_ground_truth (Some rows) !! k with
  | Some v =>
      exists rows1 a b rest rows2,
        rows = rows1 ++ (a :: b :: rest) :: rows2 /\ strip a = k /\ strip b = v /\
        forall a' b' rest', (a' :: b' :: rest') ∈ rows2 -> strip a' <> k
  | None => forall a b rest, (a :: b :: rest) ∈ rows -> strip a <> k
  end.
Proof.
  induction rows as [|row rows IH] using rev_ind.
  - unfold Utils.load_ground_truth. cbn [foldl]. rewrite lookup_empty.
    intros a b rest H. by apply elem_of_nil in H.
  - rewrite load_snoc. unfold step.
    assert (forall g : gmap str str,
              (forall a b rest, row <> a :: b :: rest) ->
              match g !! k with
              | Some v =>
                  exists rows1 a b rest rows2,
                    rows = rows1 ++ (a :: b :: rest) :: rows2 /\ strip a = k /\
                    strip b = v /\
                    forall a' b' rest', (a' :: b' :: rest') ∈ rows2 -> strip a' <> k
              | None => forall a b rest, (a :: b :: rest) ∈ rows -> strip a <> k
              end ->
              match g !! k with
              | Some v =>
                  exists rows1 a b rest rows2,
                    rows ++ [row] = rows1 ++ (a :: b :: rest) :: rows2 /\ strip a = k /\
                    strip b = v /\
                    forall a' b' rest', (a' :: b' :: rest') ∈ rows2 -> strip a' <> k
              | None => forall a b rest, (a :: b :: rest) ∈ rows ++ [row] -> strip a <> k
              end) as Hshort.
    { intros g Hrow Hg. destruct (g !! k) as [v|].
      - destruct Hg as (rows1 & a & b & rest & rows2 & -> & Ha & Hb & Hlater).
        exists rows1, a, b, rest, (rows2 ++ [row]).
        split; [by rewrite <- app_assoc|]. split; [done|]. split; [done|].
        intros a' b' rest' [H|H]%elem_of_app; [by eapply Hlater|].
        apply list_elem_of_singleton in H. symmetry in H. by apply Hrow in H.
      - intros a b rest [H|H]%elem_of_app; [by eapply Hg|].
        apply list_elem_of_singleton in H. symmetry in H. by apply Hrow in H. }
    destruct row as [|a [|b rest]]; [by apply Hshort..|].
    rewrite lookup_insert. destruct (decide (strip a = k)) as [Hk|Hk].
    + exists rows, a, b, rest, []. split; [done|]. split; [done|]. split; [done|].
      intros a' b' rest' H. by apply elem_of_nil in H.
    + destruct (Utils.load_ground_truth (Some rows) !! k) as [v|].
      * destruct IH as (rows1 & a0 & b0 & rest0 & rows2 & -> & Ha & Hb & Hlater).
        exists rows1, a0, b0, rest0, (rows2 ++ [a :: b :: rest]).
        split; [by rewrite <- app_assoc|]. split; [done|]. split; [done|].
        intros a' b' rest' [H|H]%elem_of_app; [by eapply Hlater|].
        apply list_elem_of_singleton in H. by injection H as -> _ _.
      * intros a' b' rest' [H|H]%elem_of_app; [by eapply IH|].
        apply list_elem_of_singleton in H. by injection H as -> _ _.
Qed.

End GroundTruth.

(** X15: the ground truth read from the rows of the file maps an image
    name to the label of the last row of two fields or more that bears this
    name, both stripped of surrounding white space; rows of fewer than two
    fields count for nothing, and a file that does not exist gives the
    empty map. *)
Theorem ground_truth_last_row_wins :
  Utils.load_ground_truth None = ∅ /\
  (forall rows1 a b rest rows2,
     (forall a' b' rest', (a' :: b' :: rest') ∈ rows2 -> strip a' <> strip a) ->
     Utils.load_ground_truth (Some (rows1 ++ (a :: b :: rest) :: rows2)) !! strip a =
     Some (strip b)) /\
  (forall rows k v,
     Utils.load_ground_truth (Some rows) !! k = Some v ->
     exists rows1 a b rest rows2,
       rows = rows1 ++ (a :: b :: rest) :: rows2 /\ strip a = k /\ strip b = v /\
       forall a' b' rest', (a' :: b' :: rest') ∈ rows2 -> strip a' <> k) /\
  (forall rows k,
     (forall a b rest, (a :: b :: rest) ∈ rows -> strip a <> k) ->
     Utils.load_ground_truth (Some rows) !! k = None).
Proof.
  split; [done|]. split; [|split].
  - intros rows1 a b rest rows2 Hlater.
    pose proof (load_lookup (rows1 ++ (a :: b :: rest) :: rows2) (strip a)) as H.
    destruct (Utils.load_ground_truth _ !! strip a) as [v|].
    + destruct H as (r1 & a0 & b0 & rest0 & r2 & Heq & Ha & Hb & Hlater0).
      f_equal. rewrite <- Hb.
      assert (forall (l1 l2 l1' l2' : list (list str)) x y,
                l1 ++ x :: l2 = l1' ++ y :: l2' ->
                x ∉ l2' -> y ∉ l2 -> x = y) as Hsame.
      { induction l1 as [|h l1 IHl]; intros l2 [|h' l1'] l2' x y He Hx Hy.
        - by injection He.
        - injection He as -> ->. exfalso. apply Hy.
          rewrite elem_of_app, elem_of_cons. auto.
        - injection He as -> <-. exfalso. apply Hx.
          rewrite elem_of_app, elem_of_cons. auto.
        - injection He as _ He. by eapply IHl. }
      assert (a :: b :: rest = a0 :: b0 :: rest0) as Hrow.
      { eapply Hsame; [exact Heq| |].
        - intros Hin. by apply Hlater0 in Hin.
        - intros Hin. apply Hlater in Hin. congruence. }
      by injection Hrow as _ -> _.
    + exfalso. apply (H a b rest); [|done].
      rewrite elem_of_app, elem_of_cons. auto.
  - intros rows k v Hv. pose proof (load_lookup rows k) as H. by rewrite Hv in H.
  - intros rows k Hno. pose proof (load_lookup rows k) as H.
    destruct (Utils.load_ground_truth (Some rows) !! k) as [v|]; [|done].
    destruct H as (r1 & a & b & rest & r2 & -> & Ha & _). exfalso.
    apply (Hno a b rest); [|done]. rewrite elem_of_app, elem_of_cons. auto.
Qed.

Lemma ground_truth_last_row_wins_witness :
  Utils.load_ground_truth
    (Some ([[lit "a.jpg"; lit "111"]; [lit "b.jpg"]] ++
           [lit " a.jpg "; lit " 156387426414724544_1_lwv "; lit "x"] ::
           [[lit "c.jpg"; lit "333"]; []])) !! strip (lit " a.jpg ") =
  Some (strip (lit " 156387426414724544_1_lwv ")).
Proof.
  apply (proj1 (proj2 ground_truth_last_row_wins)).
  intros a' b' rest' Hin.
  apply elem_of_cons in Hin as [Hin|Hin].
  - injection Hin as -> _ _. by vm_compute.
  - apply elem_of_cons in Hin as [Hin|Hin]; [discriminate|].
    by apply elem_of_nil in Hin.
Defined.

(** ** The callers of the extractor *)

Lemma or_empty_outcome (r : option str) :
  (forall x, r = Some x -> x <> []) ->
  (Batch.or_empty r = [] <-> r = None) /\
  (forall x, r = Some x -> Batch.or_empty r = x).
Proof.
  intros Hne. destruct r as [[|c x]|]; cbn [Batch.or_empty].
  - by destruct (Hne [] eq_refl).
  - split; [done|]. by intros ? [= <-].
  - split; [done|]. discriminate.
Qed.

(** X16: [process_single] raises what [get_candidate_rois] or [ocr_rois]
    raise, and nothing else.  It returns the empty string when the image
    gives no region.  When both calls return and there are regions, it
    returns: the empty string exactly when none of the recognized texts
    yields a candidate, and otherwise the reference that the ground truth
    holds for the base name of the path, or a candidate extracted from one
    of the texts, made of a run of digits 0 to 9, possibly empty, that
    [_1_] and lower-case letters or [_1] may follow. *)
Theorem process_single_result
  (image : Type) (basename : str -> str)
  (get_candidate_rois : str -> result (list image))
  (ocr_rois : list image -> result (list str))
  (img_path : str) (extractor : TextExtractor.t) :
  let run := Batch.process_single image basename get_candidate_rois ocr_rois in
  match get_candidate_rois img_path with
  | Raise e => run img_path extractor = Raise e
  | Ok [] => run img_path extractor = Ok []
  | Ok rois =>
      match ocr_rois rois with
      | Raise e => run img_path extractor = Raise e
      | Ok ocr_texts =>
          exists p,
            run img_path extractor = Ok p /\
            (p = [] <-> forall t, t ∈ ocr_texts -> _extract_from_text t = Ok []) /\
            (p <> [] ->
             reference_of extractor (Some (basename img_path)) = Some p \/
             (canonical 0 0 p /\
              exists t found, t ∈ ocr_texts /\
                              _extract_from_text t = Ok found /\ p ∈ found))
      end
  end.
Proof.
  cbv zeta. unfold Batch.process_single. cbv zeta.
  destruct (get_candidate_rois img_path) as [[|roi rois]|e]; cbn [bind]; [done| |done].
  destruct (ocr_rois (roi :: rois)) as [ocr_texts|e]; cbn [bind]; [|done].
  destruct (extract_best_outcome extractor ocr_texts (Some (basename img_path)))
    as (r & -> & Hnone & Hsome).
  cbn [bind]. exists (Batch.or_empty r). split; [done|].
  destruct (or_empty_outcome r) as [Hempty Hval].
  { intros x Hx. by apply Hsome in Hx as [? _]. }
  split.
  - by rewrite Hempty, Hnone.
  - intros Hp. destruct r as [x|]; [|by destruct Hp; apply Hempty].
    rewrite (Hval x eq_refl). by apply Hsome.
Qed.

(** X17: [run_inference], whose extractor holds no ground truth, raises
    what [get_candidate_rois] or [ocr_rois] raise, and nothing else.  It
    returns the empty string when the image gives no region.  When both
    calls return and there are regions, it never returns a reference: its
    result is the empty string, exactly when no text yields a candidate, or
    a candidate extracted from one of the texts, made of a run of digits 0
    to 9, possibly empty, that [_1_] and lower-case letters or [_1] may
    follow. *)
Theorem run_inference_result
  (image : Type) (get_candidate_rois : str -> result (list image))
  (ocr_rois : list image -> result (list str)) (image_path : str) :
  let run := Batch.run_inference image get_candidate_rois ocr_rois in
  match get_candidate_rois image_path with
  | Raise e => run image_path = Raise e
  | Ok [] => run image_path = Ok []
  | Ok rois =>
      match ocr_rois rois with
      | Raise e => run image_path = Raise e
      | Ok ocr_texts =>
          exists p,
            run image_path = Ok p /\
            (p = [] <-> forall t, t ∈ ocr_texts -> _extract_from_text t = Ok []) /\
            (p <> [] ->
             canonical 0 0 p /\
             exists t found, t ∈ ocr_texts /\
                             _extract_from_text t = Ok found /\ p ∈ found)
      end
  end.
Proof.
  cbv zeta. unfold Batch.run_inference.
  destruct (get_candidate_rois image_path) as [[|roi rois]|e]; cbn [bind]; [done| |done].
  destruct (ocr_rois (roi :: rois)) as [ocr_texts|e]; cbn [bind]; [|done].
  destruct (extract_best_outcome (TextExtractor.init None None) ocr_texts None)
    as (r & -> & Hnone & Hsome).
  cbn [bind]. exists (Batch.or_empty r). split; [done|].
  destruct (or_empty_outcome r) as [Hempty Hval].
  { intros x Hx. by apply Hsome in Hx as [? _]. }
  split.
  - by rewrite Hempty, Hnone.
  - intros Hp. destruct r as [x|]; [|by destruct Hp; apply Hempty].
    rewrite (Hval x eq_refl). by destruct (Hsome x eq_refl) as [_ [?|?]].
Qed.

(** ** A reference among the candidates *)

(** X18: with a snap threshold that is not negative, a non-empty reference
    that is itself one of the candidates is returned, whatever the scores;
    with a negative threshold the reference is never used. *)
Theorem reference_among_candidates self raw_candidates score_map gt :
  (gt <> [] -> gt ∈ raw_candidates -> (0 <= max_snap self)%Z ->
   choose_best self raw_candidates score_map (Some gt) = Ok (Some gt)) /\
  ((max_snap self < 0)%Z ->
   choose_best self raw_candidates score_map (Some gt) =
   choose_best self raw_candidates score_map None).
Proof.
  split.
  - intros Hgt Hin Hsnap.
    assert (raw_candidates <> []) as Hne.
    { intros ->. by apply elem_of_nil in Hin. }
    destruct (choose_best_reference self raw_candidates score_map gt Hne Hgt)
      as (c & d & _ & _ & Hmin & ->).
    assert (d = 0) as ->.
    { apply (proj2 (elem_of_unique_of _ _)) in Hin. apply Hmin in Hin.
      unfold levenshtein in Hin. rewrite lev_diag in Hin. lia. }
    change (Z.of_nat 0) with 0%Z. by rewrite (proj2 (Z.leb_le _ _) Hsnap).
  - intros Hneg. destruct raw_candidates as [|r0 raw]; [done|].
    destruct gt as [|g0 g']; [done|].
    destruct (choose_best_reference self (r0 :: raw) score_map (g0 :: g'))
      as (c & d & _ & _ & _ & ->); [done..|].
    rewrite (proj2 (Z.leb_gt _ _)); [done|lia].
Qed.

Lemma reference_among_candidates_witness :
  choose_best {| max_snap := 0 |}
    [lit "123456789012345678_1_abc"; waybill]
    {[ lit "123456789012345678_1_abc" := 170%Z; waybill := 20%Z ]} (Some waybill) =
  Ok (Some waybill).
Proof.
  apply (proj1 (reference_among_candidates {| max_snap := 0 |}
                  [lit "123456789012345678_1_abc"; waybill]
                  {[ lit "123456789012345678_1_abc" := 170%Z; waybill := 20%Z ]}
                  waybill)).
  - done.
  - right. left.
  - done.
Defined.

(** ** The digits of a candidate *)

Lemma span_app_all cls (d r : str) :
  forallb cls d = true -> length d <= span cls (d ++ r).
Proof. apply span_all. Qed.

Lemma span_stop cls (d r : str) :
  forallb cls d = true ->
  match r with [] => True | c :: _ => cls c = false end ->
  span cls (d ++ r) = length d.
Proof.
  intros Hd Hr. induction d as [|c d IH]; cbn [app span length].
  - destruct r as [|c r]; [done|]. cbn [span]. by rewrite Hr.
  - cbn [forallb] in Hd. apply andb_prop in Hd as [-> Hd]. by rewrite IH.
Qed.

(** The normalization of a match keeps its leading digits. *)
Lemma _norm_match_digits m k :
  1 <= k -> k <= span is_digit m -> count (is_char "_") m <= 3 ->
  exists c, _norm m = Ok c /\ form c /\ k <= span is_digit c.
Proof.
  intros Hk Hspan Hcount.
  pose proof (span_le is_digit m) as Hle.
  assert (exists D r, m = D ++ r /\ k <= length D /\ forallb is_digit D = true)
    as (D & r & -> & HD & Hall).
  { exists (take (span is_digit m) m), (drop (span is_digit m) m).
    split; [by rewrite take_drop|]. split; [|by apply span_take_all].
    rewrite length_take. lia. }
  assert (D <> []) as HDne by (intros ->; cbn in HD; lia).
  destruct (strip_keeps_prefix D r HDne (no_space_digits D Hall)) as [r' Hstrip].
  pose proof (count_strip (is_char "_") (D ++ r)) as Hcs.
  assert (forall x y, k <= span is_digit (List.filter is_digit (D ++ x) ++ y)) as Hkeep.
  { intros x y. rewrite List.filter_app, forallb_filter_id, <- app_assoc by done.
    etrans; [exact HD|]. by apply span_all. }
  rewrite _norm_eq, Hstrip in *.
  destruct (contains (lit "_1_") (D ++ r')) eqn:Hc3.
  - destruct (split_two _ Hc3) as (n & t & Hsplit); [lia|].
    destruct (split_keeps_prefix (lit "1_") D r' (no_underscore_digits D Hall))
      as (x & xs & Hhead).
    change (ch "_" :: lit "1_") with (lit "_1_") in Hhead.
    rewrite Hsplit in Hhead |- *. injection Hhead as -> _.
    eexists. split; [reflexivity|]. split; [|apply Hkeep].
    constructor; [apply forallb_filter|apply forallb_lower_filter_alpha].
  - destruct (contains (lit "_1") (D ++ r')) eqn:Hc2.
    + destruct (split_keeps_prefix (lit "1") D r' (no_underscore_digits D Hall))
        as (x & xs & Hhead).
      change (ch "_" :: lit "1") with (lit "_1") in Hhead. rewrite Hhead.
      eexists. split; [reflexivity|]. split; [|apply Hkeep].
      constructor. apply forallb_filter.
    + eexists. split; [reflexivity|]. split; [constructor; apply forallb_filter|].
      rewrite <- (app_nil_r (List.filter _ _)). apply Hkeep.
Qed.

(** Where every decimal digit is one of 0 to 9, the runs of both kinds
    are the same. *)
Lemma span_ascii_digits s :
  ascii_digits_only s = true -> span is_decimal s = span is_digit s.
Proof.
  unfold ascii_digits_only. induction s as [|c s IH]; [done|].
  cbn [forallb span]. intros [Hc Hs]%andb_prop.
  destruct (is_digit c) eqn:Hd.
  - by rewrite (digit_is_decimal c Hd), IH.
  - destruct (is_decimal c); [done|reflexivity].
Qed.

Lemma ascii_digits_only_Forall s :
  ascii_digits_only s = true <->
  Forall (fun c => implb (is_decimal c) (is_digit c) = true) s.
Proof.
  unfold ascii_digits_only. rewrite forallb_forall, Forall_forall.
  split; intros H c Hc; apply H; by apply list_elem_of_In.
Qed.

Lemma replace_char_chars (P : char -> Prop) x y s :
  P (ch y) -> Forall P s -> Forall P (replace_char x y s).
Proof.
  intros Hy. unfold replace_char. induction 1 as [|c s Hc Hs IH]; [done|].
  cbn [map]. constructor; [|done]. by destruct (c =? ch x)%N.
Qed.

Lemma words_go_keeps (P : char -> Prop) s : forall cur,
  P (ch " ") -> Forall P s -> Forall P cur ->
  Forall P (join (lit " ") (words_go cur s)).
Proof.
  induction s as [|c s IH]; intros cur Hsp Hs Hcur; cbn [words_go].
  - destruct cur; [done|]. cbn [join]. by apply Forall_rev.
  - apply Forall_cons in Hs as [Hc Hs]. destruct (is_space c).
    + destruct cur as [|c0 cur]; [by apply IH|].
      cbn [join]. specialize (IH [] Hsp Hs ltac:(done)).
      destruct (words_go [] s) as [|w ws]; [by apply Forall_rev|].
      apply Forall_app. split; [by apply Forall_rev|]. by constructor.
    + apply IH; [done|done|by constructor].
Qed.

(** Cleaning brings in no character but the space and the underscore. *)
Lemma _clean_text_chars (P : char -> Prop) t :
  P (ch " ") -> P (ch "_") -> Forall P t -> Forall P (_clean_text t).
Proof.
  intros Hsp Hus Ht. unfold _clean_text. cbv zeta. unfold sub.
  apply sub_go_chars; [done|]. apply sub_go_chars; [by repeat constructor|].
  apply words_go_keeps; [done| |done].
  apply replace_char_chars; [done|]. by apply replace_char_chars.
Qed.

Lemma _clean_text_ascii_digits t :
  ascii_digits_only t = true -> ascii_digits_only (_clean_text t) = true.
Proof.
  rewrite !ascii_digits_only_Forall. by apply _clean_text_chars.
Qed.

(** In a text whose decimal digits are those of ASCII, a match of one of
    the patterns starts with 15 digits 0 to 9. *)
Lemma finditer_patterns_ascii pat text m :
  ascii_digits_only text = true ->
  pat ∈ patterns -> m ∈ finditer pat text ->
  15 <= span is_digit m /\ count (is_char "_") m <= 2.
Proof.
  intros Hascii Hpat Hm.
  destruct (finditer_patterns pat text m Hpat Hm) as [H15 H2]. split; [|done].
  rewrite <- span_ascii_digits; [done|].
  apply ascii_digits_only_Forall. apply ascii_digits_only_Forall in Hascii.
  by eapply finditer_go_chars.
Qed.

Lemma extract_matches_digits text :
  ascii_digits_only text = true ->
  exists found,
    _extract_from_text text = Ok found /\
    Forall (fun c => form c /\ 15 <= span is_digit c) found.
Proof.
  intros Hascii. apply _clean_text_ascii_digits in Hascii.
  unfold _extract_from_text. cbv zeta. apply extract_patterns; [|done].
  intros pat m Hpat Hm.
  destruct (finditer_patterns_ascii pat _ m Hascii Hpat Hm) as [H15 H2].
  destruct (_norm_match_digits m 15) as (c & Hc & Hform); [lia..|]. by exists c.
Qed.

Lemma form_long_score c :
  form c -> 15 <= span is_digit c ->
  exists sc, _score c = Ok sc /\ sc ∈ [20; 60; 70; 100; 120; 150; 170]%Z.
Proof.
  destruct _score_forms as (H1 & H2 & H3).
  intros [D L HD HL|D HD|D HD] Hspan.
  - rewrite (H1 D L HD HL). eexists. split; [reflexivity|]. unfold spec_score_suffix.
    destruct (length D =? 18), (16 <=? length D), (length L =? 3); cbn; set_solver.
  - rewrite (H2 D HD). rewrite span_stop in Hspan by done.
    rewrite (proj2 (Nat.leb_le _ _) Hspan). eexists. split; [reflexivity|]. set_solver.
  - rewrite (H3 D HD). unfold spec_score_bare.
    rewrite <- (app_nil_r D), span_stop in Hspan by done.
    rewrite (proj2 (Nat.leb_le _ _) Hspan). eexists. split; [reflexivity|]. set_solver.
Qed.

(** X19: when the decimal digits of a text are all among 0 to 9, every
    candidate that extraction returns starts with 15 digits or more, and
    the scorer gives it one of the scores 20, 60, 70, 100, 120, 150 and
    170: never 0, and never an exception. *)
Theorem candidates_have_long_digit_runs (text : str) (found : list str) (c : str) :
  ascii_digits_only text = true ->
  _extract_from_text text = Ok found -> c ∈ found ->
  15 <= span is_digit c /\
  exists sc, _score c = Ok sc /\ sc ∈ [20; 60; 70; 100; 120; 150; 170]%Z.
Proof.
  intros Hascii Hfound Hc.
  destruct (extract_matches_digits text Hascii) as (found' & Hf & Hall).
  rewrite Hfound in Hf. injection Hf as <-.
  rewrite Forall_forall in Hall. destruct (Hall c Hc) as [Hform Hspan].
  split; [done|]. by apply form_long_score.
Qed.

Lemma candidates_have_long_digit_runs_witness :
  15 <= span is_digit (lit "123456789012345_1_") /\
  exists sc, _score (lit "123456789012345_1_") = Ok sc /\
             sc ∈ [20; 60; 70; 100; 120; 150; 170]%Z.
Proof.
  apply (candidates_have_long_digit_runs (lit "no 1234 56789012345 _ 1_")
           [lit "123456789012345_1_"; lit "123456789012345_1"; lit "123456789012345"]).
  - by vm_compute.
  - by vm_compute.
  - left.
Defined.

(** With decimal digits of another script, a candidate has no digit and
    the score 0. *)
Example candidate_without_digit :
  _extract_from_text (arabic_indic_18 ++ lit "_1") = Ok [lit "_1"] /\
  span is_digit (lit "_1") = 0 /\ _score (lit "_1") = Ok 0%Z.
Proof. by vm_compute. Qed.

(** ** When the extractor finds nothing *)

Lemma backtrack_first {A} (try : nat -> option A) lo k r :
  lo <= k -> try k = Some r -> backtrack try lo k = Some r.
Proof.
  intros Hlo Htry. destruct k as [|k]; cbn [backtrack].
  - destruct (Nat.ltb_spec 0 lo); [lia|]. by rewrite Htry.
  - destruct (Nat.ltb_spec (S k) lo); [lia|]. by rewrite Htry.
Qed.

Lemma match_digit_run prev s :
  15 <= span is_decimal s ->
  match_here [digits 15 20] prev s = Some (Nat.min 20 (span is_decimal s)).
Proof.
  intros Hspan. unfold digits. cbn [match_here cap].
  rewrite (backtrack_first _ _ _ (Nat.min 20 (span is_decimal s))); [done|lia|].
  cbn [match_here]. by rewrite Nat.add_0_r.
Qed.

Lemma finditer_go_run s : forall prev,
  has_digit_run 15 s = true -> finditer_go [digits 15 20] 0 prev s <> [].
Proof.
  induction s as [|c s IH]; intros prev; [done|].
  cbn [has_digit_run finditer_go].
  destruct (Nat.leb_spec 15 (span is_decimal (c :: s))) as [Hrun|Hshort].
  - intros _. rewrite match_digit_run by done.
    destruct (Nat.min 20 (span is_decimal (c :: s))) as [|len] eqn:Hmin; [lia|done].
  - cbn [orb]. intros Hrun.
    destruct (match_here [digits 15 20] prev (c :: s)) as [[|len]|] eqn:Hm;
      [by apply IH| |by apply IH].
    apply match_digits in Hm. lia.
Qed.

Lemma extract_matches_grow ms : forall found found',
  for_each
    (fun found m =>
       bind (_norm m) (fun norm =>
       match norm with
       | [] => Ok found
       | _ => Ok (found ++ [norm])
       end))
    ms found = Ok found' ->
  (forall x, x ∈ found -> x ∈ found') /\
  (forall m c, m ∈ ms -> _norm m = Ok c -> c <> [] -> c ∈ found').
Proof.
  induction ms as [|m ms IH]; intros found found'; cbn [for_each].
  - intros [= <-]. split; [done|]. intros m c Hm. by apply elem_of_nil in Hm.
  - destruct (_norm m) as [c|e] eqn:Hnorm; [|done]. cbn [bind].
    destruct c as [|c0 c].
    + intros [Hsub Hnew]%IH. split; [done|].
      intros m' c' [->|Hm']%elem_of_cons Hc' Hne; [congruence|by eapply Hnew].
    + intros [Hsub Hnew]%IH. split.
      * intros x Hx. apply Hsub. rewrite elem_of_app. by left.
      * intros m' c' [->|Hm']%elem_of_cons Hc' Hne; [|by eapply Hnew].
        apply Hsub. rewrite elem_of_app, list_elem_of_singleton. right. congruence.
Qed.

Lemma extract_patterns_grow text pats : forall found found',
  for_each
    (fun found pat =>
       for_each
         (fun found m =>
            bind (_norm m) (fun norm =>
            match norm with
            | [] => Ok found
            | _ => Ok (found ++ [norm])
            end))
         (finditer pat text) found)
    pats found = Ok found' ->
  (forall x, x ∈ found -> x ∈ found') /\
  (forall pat m c, pat ∈ pats -> m ∈ finditer pat text -> _norm m = Ok c ->
                   c <> [] -> c ∈ found').
Proof.
  induction pats as [|pat pats IH]; intros found found'; cbn [for_each].
  - intros [= <-]. split; [done|]. intros pat m c Hpat. by apply elem_of_nil in Hpat.
  - destruct (for_each _ (finditer pat text) found) as [found1|e] eqn:Hinner; [|done].
    cbn [bind]. apply extract_matches_grow in Hinner as [Hsub1 Hnew1].
    intros [Hsub Hnew]%IH. split; [auto|].
    intros pat' m c [->|Hpat']%elem_of_cons Hm Hc Hne; [|by eapply Hnew].
    by eapply Hsub, Hnew1.
Qed.

(** A text with a run of 15 digits after cleaning yields a candidate, when
    its decimal digits are those of ASCII. *)
Lemma _extract_from_text_run t :
  ascii_digits_only t = true ->
  has_digit_run 15 (_clean_text t) = true ->
  exists c found, _extract_from_text t = Ok found /\ c ∈ found.
Proof.
  intros Hascii Hrun. apply _clean_text_ascii_digits in Hascii.
  destruct (_extract_from_text_form t) as (found & Hfound & _).
  pose proof Hfound as Hgrow. unfold _extract_from_text in Hgrow. cbv zeta in Hgrow.
  apply extract_patterns_grow in Hgrow as [_ Hnew].
  pose proof (finditer_go_run (_clean_text t) None Hrun) as Hne.
  fold (finditer [digits 15 20] (_clean_text t)) in Hne.
  destruct (finditer [digits 15 20] (_clean_text t)) as [|m ms] eqn:Hms; [done|].
  assert ([digits 15 20] ∈ patterns) as Hpat.
  { unfold patterns. do 4 right. left. }
  assert (m ∈ finditer [digits 15 20] (_clean_text t)) as Hm by (rewrite Hms; left).
  destruct (finditer_patterns_ascii _ _ m Hascii Hpat Hm) as [H15 H2].
  destruct (_norm_match_digits m 15) as (c & Hc & _ & Hspan); [lia..|].
  exists c, found. split; [done|].
  apply (Hnew [digits 15 20] m c); [done|done|done|].
  intros ->. cbn in Hspan. lia.
Qed.

Lemma _extract_from_text_nil_iff t :
  ascii_digits_only t = true ->
  _extract_from_text t = Ok [] <-> has_digit_run 15 (_clean_text t) = false.
Proof.
  intros Hascii. split; [|apply _extract_from_text_no_run].
  intros Hnil. destruct (has_digit_run 15 (_clean_text t)) eqn:Hrun; [|done].
  destruct (_extract_from_text_run t Hascii Hrun) as (c & found & Hfound & Hc).
  rewrite Hnil in Hfound. injection Hfound as <-. by apply elem_of_nil in Hc.
Qed.

(** X20: when the decimal digits of the texts are all among 0 to 9, the
    extractor answers None exactly when no text of the pool, once cleaned,
    holds a run of 15 digits or more: a text with such a run always yields
    a candidate, and then a result. *)
Theorem none_iff_no_digit_run self (texts : list str) image_name :
  (forall t, t ∈ texts -> ascii_digits_only t = true) ->
  extract_best_from_texts self texts image_name = Ok None <->
  forall t, t ∈ texts -> has_digit_run 15 (_clean_text t) = false.
Proof.
  intros Hascii.
  destruct (extract_best_outcome self texts image_name) as (r & Hr & Hnone & _).
  rewrite Hr. split.
  - intros [= ->]. intros t Ht. apply _extract_from_text_nil_iff; [by apply Hascii|].
    by apply (proj1 Hnone).
  - intros Hno. f_equal. apply Hnone. intros t Ht.
    by apply _extract_from_text_no_run, Hno.
Qed.

Lemma none_iff_no_digit_run_witness :
  extract_best_from_texts (TextExtractor.init None None)
    [lit "tel +31 6 1234 5678"; lit "15638742641472 _1_ lWV"] None = Ok None <->
  forall t, t ∈ [lit "tel +31 6 1234 5678"; lit "15638742641472 _1_ lWV"] ->
            has_digit_run 15 (_clean_text t) = false.
Proof.
  apply none_iff_no_digit_run.
  intros t Ht. repeat (apply elem_of_cons in Ht as [->|Ht]; [by vm_compute|]).
  by apply elem_of_nil in Ht.
Defined.

Example digit_run_always_found :
  extract_best_from_texts (TextExtractor.init None None)
    [lit "LOT 4 4 1 2 3 4 5 6 7 8 9 0 1 2 3 4 5 6 7 8 9 0 1 2 3 4 5 6"] None =
  Ok (Some (lit "44123456789012345678")).
Proof. by vm_compute. Qed.

(** A run of decimal digits of another script: the patterns match it, and
    normalization leaves nothing of it. *)
Example decimal_run_without_candidate :
  has_digit_run 15 (_clean_text arabic_indic_18) = true /\
  extract_best_from_texts (TextExtractor.init None None) [arabic_indic_18] None =
  Ok None.
Proof. by vm_compute. Qed.

(** ** The length of a normalized string *)

Lemma split_go_nonempty sep s : forall skip cur, split_go sep skip cur s <> [].
Proof.
  induction s as [|c s IH]; intros skip cur; cbn [split_go]; [done|].
  destruct skip; [|apply IH]. destruct (startswith sep (c :: s)); [done|apply IH].
Qed.

Lemma split_go_length sep s : forall skip cur,
  sep <> [] -> skip <= length s ->
  sum_list (length <$> split_go sep skip cur s) +
  length sep * (length (split_go sep skip cur s) - 1) + skip =
  length cur + length s.
Proof.
  induction s as [|c s IH]; intros skip cur Hsep Hskip.
  - cbn in Hskip. replace skip with 0 by lia. cbn. rewrite length_rev. lia.
  - cbn [split_go]. destruct skip as [|k].
    + destruct (startswith sep (c :: s)) eqn:Hsw.
      * apply startswith_inv in Hsw as [s' Hs'].
        destruct sep as [|x sep']; [done|]. injection Hs' as -> ->.
        replace (length (x :: sep') - 1) with (length sep') by (cbn [length]; lia).
        specialize (IH (length sep') [] Hsep).
        cbn [length] in *. rewrite length_app in *.
        specialize (IH ltac:(lia)).
        destruct (split_go (x :: sep') (length sep') [] (sep' ++ s')) as [|w ws] eqn:Hparts.
        { by apply split_go_nonempty in Hparts. }
        cbn [fmap list_fmap sum_list sum_list_with length] in *.
        rewrite length_rev. unfold id in *.
        replace (S (length ws) - 1) with (length ws) in IH by lia.
        replace (S (S (length ws)) - 1) with (S (length ws)) by lia.
        rewrite Nat.mul_succ_r. lia.
      * specialize (IH 0 (c :: cur) Hsep ltac:(lia)). cbn [length] in *. lia.
    + specialize (IH k cur Hsep). cbn [length] in *. specialize (IH ltac:(lia)). lia.
Qed.

Lemma length_lstrip s : length (lstrip s) <= length s.
Proof.
  induction s as [|c s IH]; [done|]. cbn [lstrip].
  destruct (is_space c); cbn [length]; lia.
Qed.

Lemma length_strip s : length (strip s) <= length s.
Proof.
  unfold strip, rstrip. rewrite length_rev.
  etrans; [apply length_lstrip|]. rewrite length_rev. apply length_lstrip.
Qed.

Lemma length_lower s : length (lower s) = length s.
Proof. apply length_map. Qed.

(** X21: normalization never lengthens a string, and it keeps neither
    white space, nor underscores other than those of one separator, nor
    upper-case letters. *)
Theorem normalization_never_lengthens (p c : str) :
  _norm p = Ok c ->
  length c <= length p /\
  forallb (non is_space) c = true /\
  count (is_char "_") c <= 2 /\
  lower c = c.
Proof.
  intros Hnorm. pose proof (_norm_form p c Hnorm) as Hform.
  split; [|split; [by apply form_no_space|split]].
  - pose proof (length_strip p) as Hstrip. rewrite _norm_eq in Hnorm.
    destruct (contains (lit "_1_") (strip p)) eqn:Hc3.
    + pose proof (split_go_length (lit "_1_") (strip p) 0 [] ltac:(done) ltac:(lia))
        as Hlen.
      fold (split (lit "_1_") (strip p)) in Hlen.
      destruct (split (lit "_1_") (strip p)) as [|n [|t [|u l]]]; try done.
      injection Hnorm as <-. cbn in Hlen.
      rewrite !length_app. unfold lower.
      cbn [lit list_ascii_of_string length map]. rewrite length_map.
      pose proof (filter_length_le is_digit n).
      pose proof (filter_length_le is_alpha t). lia.
    + destruct (contains (lit "_1") (strip p)) eqn:Hc2.
      * pose proof (split_go_length (lit "_1") (strip p) 0 [] ltac:(done) ltac:(lia))
          as Hlen.
        pose proof (contains_split_go (lit "1") [] _ Hc2) as H2.
        change (ch "_" :: lit "1") with (lit "_1") in H2.
        fold (split (lit "_1") (strip p)) in Hlen, H2.
        destruct (split (lit "_1") (strip p)) as [|n l]; [done|].
        injection Hnorm as <-. cbn in Hlen, H2.
        rewrite length_app. cbn [lit list_ascii_of_string length map].
        pose proof (filter_length_le is_digit n). lia.
      * injection Hnorm as <-. pose proof (filter_length_le is_digit (strip p)). lia.
  - destruct Hform as [D L HD HL|D HD|D HD]; rewrite ?count_app.
    + rewrite (count_none _ D) by (by apply no_underscore_digits).
      rewrite (count_none _ L) by (by apply no_underscore_lower).
      change (count (is_char "_") (lit "_1_")) with 2. lia.
    + rewrite (count_none _ D) by (by apply no_underscore_digits).
      change (count (is_char "_") (lit "_1")) with 1. lia.
    + rewrite (count_none _ D) by (by apply no_underscore_digits). lia.
  - assert (forall s, forallb (fun x => bool_decide (lower_char x = x)) s = true ->
              lower s = s) as Hfix.
    { induction s as [|x s IH]; [done|]. cbn [forallb lower map].
      intros [Hx Hs]%andb_prop. apply bool_decide_eq_true in Hx.
      rewrite Hx. f_equal. by apply IH. }
    assert (forall s, forallb is_digit s = true ->
              forallb (fun x => bool_decide (lower_char x = x)) s = true) as Hdig.
    { intros s. apply forallb_impl. intros x Hx. apply bool_decide_eq_true.
      by apply lower_char_digit. }
    assert (forall s, forallb is_lower s = true ->
              forallb (fun x => bool_decide (lower_char x = x)) s = true) as Hlow.
    { intros s. apply forallb_impl. intros x Hx. apply bool_decide_eq_true.
      by apply lower_char_lower. }
    apply Hfix. destruct Hform as [D L HD HL|D HD|D HD]; rewrite ?forallb_app.
    + by rewrite (Hdig D), (Hlow L).
    + by rewrite (Hdig D).
    + by apply Hdig.
Qed.

Lemma normalization_never_lengthens_witness :
  length waybill <= length (lit "reverseWaybill 156387426414724544 _1_ lW-V ") /\
  forallb (non is_space) waybill = true /\
  count (is_char "_") waybill <= 2 /\
  lower waybill = waybill.
Proof.
  apply (normalization_never_lengthens
           (lit "reverseWaybill 156387426414724544 _1_ lW-V ") waybill).
  by vm_compute.
Defined.
